(** * mc-replay-go: the MCPR container writer and the proxy frame recorder

    A shallow embedding of the Go packages [mcpr] (writer, metadata,
    validation), [mcpr/recorder] (the synchronized facade) and
    [examples/proxyrec] (frame splitting, tee forwarding), followed by the
    properties of the design document that are checked against them.

    Conventions.  Go's unsigned types ([byte], [uint32], [uint]) are [N],
    its signed ones ([int32], [int64], [int]) are [Z] together with the
    wrap-around of each conversion written out.  A byte slice is a
    [list byte]; a [nil] slice and an empty one are not told apart. *)

From Stdlib Require Import ZArith NArith String Ascii Bool Lia.
From Stdlib Require Import DecimalString List.
From Equations Require Import Equations.
From stdpp Require Import base option list strings gmap.
Import ListNotations.

Local Open Scope Z_scope.

(** ** Machine integers *)

Abbreviation byte := N (only parsing).

Definition int32 (x : Z) : Z :=
  let u := x mod 2 ^ 32 in
  if u <? 2 ^ 31 then u else u - 2 ^ 32.

Definition uint32 (x : Z) : N := Z.to_N (x mod 2 ^ 32).

Definition is_int32 (v : Z) : Prop := - 2 ^ 31 <= v < 2 ^ 31.
Definition is_uint32 (u : N) : Prop := (u < 2 ^ 32)%N.

(** ** Errors of the three packages *)

Inductive error : Type :=
| ErrWriterClosed                 (* "mcpr: writer closed" *)
| ErrCreateEntry (name : string)  (* "create <name>: ..." *)
| ErrSink                         (* an error of the underlying io.Writer *)
| ErrZipWriteClosed               (* archive/zip: write to a closed entry *)
| ErrZipClose                     (* zip.Writer.Close failed *)
| ErrFileClose                    (* os.File.Close failed *)
| ErrEOF                          (* io.EOF *)
| ErrUnexpectedEOF                (* io.ErrUnexpectedEOF *)
| ErrVarIntTooLong                (* "varint too long" *)
| ErrInvalidFrameLength (n : Z)   (* "invalid frame length %d" *)
| ErrClosedPipe                   (* io.ErrClosedPipe *)
| ErrOsCreate                     (* os.Create failed *)
| ErrNotFound                     (* "replay file not found: ..." *)
| ErrEmptyFile                    (* "replay file is empty (0 bytes)" *)
| ErrNotZip                       (* "not a valid zip file: ..." *)
| ErrMissingFile (name : string)  (* "missing required file: <name>" *)
| ErrOpenMeta                     (* "failed to open metaData.json: ..." *)
| ErrReadMeta                     (* "failed to read metaData.json: ..." *)
| ErrParseMeta.                   (* "failed to parse metaData.json: ..." *)

Inductive result (A : Type) : Type :=
| Ok (a : A)
| Err (e : error).
Arguments Ok {A} a.
Arguments Err {A} e.

(** ** VarInt codec *)

Module VarInt.

(** [encodeVarInt]'s loop: one 7-bit group per round, low group first, the
    continuation bit set while bits remain. *)
Equations? encodeVarInt_loop (uv : N) (out : list byte) : list byte
  by wf (N.to_nat uv) lt :=
  encodeVarInt_loop uv out with N.eq_dec (N.shiftr uv 7%N) 0%N => {
    | left _ := out ++ [N.land uv 0x7F%N];
    | right _ :=
        encodeVarInt_loop (N.shiftr uv 7%N)
                          (out ++ [N.lor (N.land uv 0x7F%N) 0x80%N]) }.
Proof.
  change (N.div2 (N.div2 (N.div2 (N.div2 (N.div2 (N.div2 (N.div2 uv)))))))
    with (N.shiftr uv 7) in *.
  rewrite N.shiftr_div_pow2 in *.
  assert (uv <> 0)%N by (intros ->; auto).
  assert (uv / 2 ^ 7 < uv)%N by (apply N.div_lt; lia).
  lia.
Qed.

Definition encodeVarInt (v : Z) : list byte :=
  encodeVarInt_loop (uint32 v) [].

(** [readVarInt] over the bytes still to come from the reader: the value as
    an int64 and the bytes left, or the error.  [i] counts the rounds that
    remain of the five. *)
Fixpoint readVarInt_loop (i : nat) (num : Z) (shift : N) (r : list byte)
  : result (Z * list byte) :=
  match i with
  | O => Err ErrVarIntTooLong
  | S i' =>
      match r with
      | [] => Err ErrEOF
      | b :: r' =>
          let num' := Z.lor num (Z.shiftl (Z.of_N (N.land b 0x7F)) (Z.of_N shift)) in
          if (N.land b 0x80 =? 0)%N then Ok (num', r')
          else readVarInt_loop i' num' (shift + 7)%N r'
      end
  end.

Definition readVarInt (r : list byte) : result (Z * list byte) :=
  readVarInt_loop 5 0 0%N r.

(** The value read or the error, without the bytes left. *)
Definition outcome {A B} (r : result (A * B)) : result A :=
  match r with
  | Ok (a, _) => Ok a
  | Err e => Err e
  end.

(** [singleVarInt]: the payload is one VarInt and nothing else. *)
Definition singleVarInt (b : list byte) : Z * bool :=
  match readVarInt b with
  | Err _ => (0, false)
  | Ok (val, rest) =>
      if (length rest =? 0)%nat then (val, true) else (0, false)
  end.

End VarInt.

Import VarInt.

(** ** Package mcpr: metadata *)

Module Mcpr.

Definition CurrentFileFormatVersion : Z := 14.

Record Meta : Type := mkMeta {
  Singleplayer : bool;
  ServerName : string;
  CustomServerName : string;
  Duration : Z;
  Date : Z;
  MCVersion : string;
  FileFormat : string;
  FileFormatVersion : Z;
  Protocol : Z;
  Generator : string;
  SelfID : Z;
  Players : list string }.

Definition set_Duration (d : Z) (m : Meta) : Meta :=
  mkMeta (Singleplayer m) (ServerName m) (CustomServerName m) d (Date m)
         (MCVersion m) (FileFormat m) (FileFormatVersion m) (Protocol m)
         (Generator m) (SelfID m) (Players m).
Definition set_Date (d : Z) (m : Meta) : Meta :=
  mkMeta (Singleplayer m) (ServerName m) (CustomServerName m) (Duration m) d
         (MCVersion m) (FileFormat m) (FileFormatVersion m) (Protocol m)
         (Generator m) (SelfID m) (Players m).
Definition set_FileFormat (s : string) (m : Meta) : Meta :=
  mkMeta (Singleplayer m) (ServerName m) (CustomServerName m) (Duration m)
         (Date m) (MCVersion m) s (FileFormatVersion m) (Protocol m)
         (Generator m) (SelfID m) (Players m).
Definition set_FileFormatVersion (v : Z) (m : Meta) : Meta :=
  mkMeta (Singleplayer m) (ServerName m) (CustomServerName m) (Duration m)
         (Date m) (MCVersion m) (FileFormat m) v (Protocol m)
         (Generator m) (SelfID m) (Players m).
Definition set_Generator (s : string) (m : Meta) : Meta :=
  mkMeta (Singleplayer m) (ServerName m) (CustomServerName m) (Duration m)
         (Date m) (MCVersion m) (FileFormat m) (FileFormatVersion m)
         (Protocol m) s (SelfID m) (Players m).
Definition set_SelfID (id : Z) (m : Meta) : Meta :=
  mkMeta (Singleplayer m) (ServerName m) (CustomServerName m) (Duration m)
         (Date m) (MCVersion m) (FileFormat m) (FileFormatVersion m)
         (Protocol m) (Generator m) id (Players m).
Definition set_Players (ps : list string) (m : Meta) : Meta :=
  mkMeta (Singleplayer m) (ServerName m) (CustomServerName m) (Duration m)
         (Date m) (MCVersion m) (FileFormat m) (FileFormatVersion m)
         (Protocol m) (Generator m) (SelfID m) ps.

(** [encoding/json] as the package uses it: the two calls, as an interface. *)
Class JSON : Type := {
  json_Marshal : Meta -> list byte;
  json_Unmarshal : list byte -> option Meta }.

Definition bytes_of_string (s : string) : list byte :=
  map N_of_ascii (list_ascii_of_string s).

(** [fmt.Sprintf("%d", v)] for an unsigned value. *)
Definition Sprintf_d (v : N) : string :=
  NilZero.string_of_uint (N.to_uint v).

(** [binary.BigEndian.PutUint32] *)
Definition PutUint32 (v : N) : list byte :=
  [ N.land (N.shiftr v 24) 0xFF; N.land (N.shiftr v 16) 0xFF;
    N.land (N.shiftr v 8) 0xFF; N.land v 0xFF ]%N.

(** [hash/crc32] with the IEEE polynomial, bit by bit; the state held is the
    finished checksum of the bytes hashed so far, as in Go's digest. *)
Definition crc32_bit (c : N) : N :=
  if N.testbit c 0 then N.lxor (N.shiftr c 1) 0xEDB88320%N else N.shiftr c 1.

Definition crc32_byte (c : N) (b : byte) : N :=
  Nat.iter 8 crc32_bit (N.lxor c (N.land b 0xFF%N)).

Definition crc32_Update (crc : N) (p : list byte) : N :=
  N.lxor (fold_left crc32_byte p (N.lxor crc 0xFFFFFFFF%N)) 0xFFFFFFFF%N.

(** ** The archive under construction (archive/zip's Writer)

    Entries are kept in creation order; only the newest one can be written,
    and creating the next one closes it for good.  [faults] lists the
    outcomes of the coming operations that reach the underlying sink
    ([true]: that operation returns an error; an exhausted list: no more
    errors).  [calls] records every call made, oldest first. *)

Record Entry : Type := mkEntry { Name : string; Data : list byte }.

Inductive ZipCall : Type :=
| CallCreate (name : string)
| CallWrite (h : nat) (p : list byte)
| CallClose.

Record ZipWriter : Type := mkZip {
  entries : list Entry;
  last_open : bool;
  zip_closed : bool;
  finished : bool;
  faults : list bool;
  calls : list ZipCall }.

Definition next_fault (fs : list bool) : bool * list bool :=
  match fs with
  | [] => (false, [])
  | f :: fs' => (f, fs')
  end.

Definition zip_NewWriter (out : list bool) : ZipWriter :=
  mkZip [] false false false out [].

Definition zip_Create (name : string) (z : ZipWriter) : result nat * ZipWriter :=
  let '(f, fs) := next_fault (faults z) in
  let log := calls z ++ [CallCreate name] in
  if f then
    (Err ErrSink, mkZip (entries z) false (zip_closed z) (finished z) fs log)
  else
    (Ok (length (entries z)),
     mkZip (entries z ++ [mkEntry name []]) true (zip_closed z) (finished z) fs log).

Definition append_data (p : list byte) (e : Entry) : Entry :=
  mkEntry (Name e) (Data e ++ p).

Definition zip_Write (h : nat) (p : list byte) (z : ZipWriter)
  : result unit * ZipWriter :=
  let log := calls z ++ [CallWrite h p] in
  if negb (last_open z) || negb (S h =? length (entries z))%nat then
    (Err ErrZipWriteClosed,
     mkZip (entries z) (last_open z) (zip_closed z) (finished z) (faults z) log)
  else
    let '(f, fs) := next_fault (faults z) in
    if f then
      (Err ErrSink,
       mkZip (entries z) (last_open z) (zip_closed z) (finished z) fs log)
    else
      (Ok tt,
       mkZip (alter (append_data p) h (entries z)) (last_open z) (zip_closed z)
             (finished z) fs log).

Definition zip_Close (z : ZipWriter) : result unit * ZipWriter :=
  let log := calls z ++ [CallClose] in
  if zip_closed z then
    (Err ErrZipClose,
     mkZip (entries z) false true (finished z) (faults z) log)
  else
    let '(f, fs) := next_fault (faults z) in
    if f then (Err ErrZipClose, mkZip (entries z) false true false fs log)
    else (Ok tt, mkZip (entries z) false true true fs log).

(** ** The writer

    [recw] is the handle of the recording entry behind the MultiWriter that
    also feeds [crc32]; [file] is set by [Create] only. *)

Record OsFile : Type := mkFile { fpath : string; fclose_fails : bool }.

Record Writer : Type := mkWriter {
  zw : ZipWriter;
  recw : option nat;
  meta : Meta;
  duration : N;
  closed : bool;
  file : option OsFile;
  crc32 : N }.

Definition set_zw (z : ZipWriter) (w : Writer) : Writer :=
  mkWriter z (recw w) (meta w) (duration w) (closed w) (file w) (crc32 w).
Definition set_meta (m : Meta) (w : Writer) : Writer :=
  mkWriter (zw w) (recw w) m (duration w) (closed w) (file w) (crc32 w).
Definition set_duration (d : N) (w : Writer) : Writer :=
  mkWriter (zw w) (recw w) (meta w) d (closed w) (file w) (crc32 w).
Definition set_closed (c : bool) (w : Writer) : Writer :=
  mkWriter (zw w) (recw w) (meta w) (duration w) c (file w) (crc32 w).
Definition set_file (f : option OsFile) (w : Writer) : Writer :=
  mkWriter (zw w) (recw w) (meta w) (duration w) (closed w) f (crc32 w).
Definition set_crc32 (c : N) (w : Writer) : Writer :=
  mkWriter (zw w) (recw w) (meta w) (duration w) (closed w) (file w) c.

(** Methods on [*Writer]: the receiver is threaded through, an error stops
    the method where Go returns it, keeping what was done before. *)
Definition IO (A : Type) : Type := Writer -> result A * Writer.

Definition io_ret {A} (a : A) : IO A := fun w => (Ok a, w).

Definition io_bind {A B} (m : IO A) (k : A -> IO B) : IO B :=
  fun w =>
    match m w with
    | (Ok a, w') => k a w'
    | (Err e, w') => (Err e, w')
    end.

Declare Scope io_scope.
Delimit Scope io_scope with io.
Notation "'let*' x ':=' m 'in' k" := (io_bind m (fun x => k))
  (at level 10, x name, m at level 100, k at level 200) : io_scope.
Notation "m '>>' k" := (io_bind m (fun _ => k))
  (at level 90, right associativity) : io_scope.

Definition io_get {A} (f : Writer -> A) : IO A := fun w => (Ok (f w), w).
Definition io_modify (f : Writer -> Writer) : IO unit := fun w => (Ok tt, f w).

(** [fmt.Errorf("...: %w", err)] *)
Definition io_wrap {A} (e : error) (m : IO A) : IO A :=
  fun w =>
    match m w with
    | (Ok a, w') => (Ok a, w')
    | (Err _, w') => (Err e, w')
    end.

Definition io_zip {A} (op : ZipWriter -> result A * ZipWriter) : IO A :=
  fun w => let '(r, z) := op (zw w) in (r, set_zw z w).

(** [io.MultiWriter(rec, crc)]: the entry first, the hash only if that went
    through. *)
Definition recw_Write (h : nat) (p : list byte) : IO unit :=
  (io_zip (zip_Write h p) >>
   io_modify (fun w => set_crc32 (crc32_Update (crc32 w) p) w))%io.

Definition NewWriter (out : list bool) (now : Z) (meta : Meta) : result Writer :=
  match zip_Create "recording.tmcpr" (zip_NewWriter out) with
  | (Err _, _) => Err (ErrCreateEntry "recording.tmcpr")
  | (Ok rec, z) =>
      let meta := if String.eqb (FileFormat meta) EmptyString then set_FileFormat "MCPR" meta else meta in
      let meta := if FileFormatVersion meta =? 0
                  then set_FileFormatVersion CurrentFileFormatVersion meta else meta in
      let meta := if Date meta =? 0 then set_Date now meta else meta in
      Ok (mkWriter z (Some rec) meta 0%N false None 0%N)
  end.

(** [Create]: [f] is what [os.Create(path)] returned. *)
Definition Create (f : result OsFile) (out : list bool) (now : Z) (meta : Meta)
  : result Writer :=
  match f with
  | Err e => Err e
  | Ok f =>
      match NewWriter out now meta with
      | Err e => Err e
      | Ok w => Ok (set_file (Some f) w)
      end
  end.

Definition WritePacket (ts : N) (packetID : Z) (payload : list byte) : IO unit :=
  fun w =>
    match closed w, recw w with
    | false, Some rec =>
        let varid := encodeVarInt packetID in
        let total := uint32 (Z.of_nat (length varid + length payload)) in
        let hdr := PutUint32 ts ++ PutUint32 total in
        (recw_Write rec hdr >>
         recw_Write rec varid >>
         recw_Write rec payload >>
         io_modify (fun w => if (duration w <? ts)%N then set_duration ts w else w))%io w
    | _, _ => (Err ErrWriterClosed, w)
    end.

(** The bytes one successful call of [WritePacket] sends to the recording
    entry, in its three writes. *)
Definition packet_bytes (ts : N) (packetID : Z) (payload : list byte) : list byte :=
  (PutUint32 ts
   ++ PutUint32 (uint32 (Z.of_nat (length (encodeVarInt packetID) + length payload))))
  ++ encodeVarInt packetID ++ payload.

Definition SetSelfID (id : Z) (w : Writer) : Writer :=
  set_meta (set_SelfID id (meta w)) w.

Definition AddPlayer (uuid : string) (w : Writer) : Writer :=
  if existsb (String.eqb uuid) (Players (meta w)) then w
  else set_meta (set_Players (Players (meta w) ++ [uuid]) (meta w)) w.

Definition CreateEntry (name : string) : IO nat :=
  fun w =>
    if closed w then (Err ErrWriterClosed, w)
    else io_zip (zip_Create name) w.

(** What [NewWriter] sets up and every method keeps: the recording handle
    names an entry of the archive. *)
Definition well_formed (w : Writer) : Prop :=
  exists h, recw w = Some h /\ (h < length (entries (zw w)))%nat.

(** [json.Marshal] of the map with the one key [requiredMods] and an empty
    list: an opening brace, the quoted key, a colon, two brackets, a brace. *)
Definition quote : string := String (ascii_of_nat 34) EmptyString.

Definition modsBytes : list byte :=
  bytes_of_string
    (String.append "{" (String.append quote (String.append "requiredMods"
       (String.append quote ":[]}")))).

Definition finalize_meta (duration : N) (m : Meta) : Meta :=
  let m := set_Duration (Z.of_N duration) m in
  let m := if String.eqb (Generator m) EmptyString then set_Generator "mc-replay-go" m else m in
  let m := if String.eqb (FileFormat m) EmptyString then set_FileFormat "MCPR" m else m in
  if FileFormatVersion m =? 0
  then set_FileFormatVersion CurrentFileFormatVersion m else m.

Definition file_Close : IO unit :=
  fun w =>
    match file w with
    | Some f => if fclose_fails f then (Err ErrFileClose, w) else (Ok tt, w)
    | None => (Ok tt, w)
    end.

Section Close.
Context {J : JSON}.

(** [json.Marshal] has no error to return on a [Meta] or on the map of
    [mods.json], so the two "marshal" branches of [Close] are left out. *)
Definition Close : IO unit :=
  fun w =>
    if closed w then (Ok tt, w)
    else
      (io_modify (fun w => set_meta (finalize_meta (duration w) (meta w)) w) >>
       let* md := io_wrap (ErrCreateEntry "metaData.json")
                          (io_zip (zip_Create "metaData.json")) in
       let* b := io_get (fun w => json_Marshal (meta w)) in
       io_zip (zip_Write md b) >>
       let* modsEntry := io_wrap (ErrCreateEntry "mods.json")
                                 (io_zip (zip_Create "mods.json")) in
       io_zip (zip_Write modsEntry modsBytes) >>
       let* crc32Entry := io_wrap (ErrCreateEntry "recording.tmcpr.crc32")
                                  (io_zip (zip_Create "recording.tmcpr.crc32")) in
       let* crc32Value := io_get (fun w => Sprintf_d (crc32 w)) in
       io_zip (zip_Write crc32Entry (bytes_of_string crc32Value)) >>
       io_zip zip_Close >>
       io_modify (set_closed true) >>
       file_Close)%io w.

(** The three entries a successful [Close] adds, in this order. *)
Definition final_entries (w : Writer) : list Entry :=
  [ mkEntry "metaData.json" (json_Marshal (finalize_meta (duration w) (meta w)));
    mkEntry "mods.json" modsBytes;
    mkEntry "recording.tmcpr.crc32" (bytes_of_string (Sprintf_d (crc32 w))) ].

End Close.

(** ** Validation of a file on disk

    What [os.Stat] and [zip.OpenReader] report for a path: the size, and the
    files of the archive when it opens.  For each file, what [Open] followed
    by [io.ReadAll] gives. *)

Inductive Content : Type :=
| OpenFails
| ReadFails
| Bytes (b : list byte).

Record ZipFile : Type := mkZipFile {
  zName : string;
  UncompressedSize64 : N;
  content : Content }.

Record DiskFile : Type := mkDisk {
  Size : N;
  archive : option (list ZipFile) }.

Inductive LogLine : Type :=
| WarnEmptyRecording
| WarnFileFormat (s : string)
| WarnFormatVersion (v : Z)
| WarnProtocolZero
| WarnDurationZero
| WarnMissingMods
| WarnMissingCrc32
| Validated (path mcversion : string) (protocol duration : Z) (size : N).

Definition fileMap_of (files : list ZipFile) : gmap string ZipFile :=
  fold_left (fun m f => <[zName f := f]> m) files ∅.

Section Validate.
Context {J : JSON}.

(** The result and the lines sent to the process log on the way. *)
Definition ValidateFile (fs : gmap string DiskFile) (path : string)
  : result unit * list LogLine :=
  match fs !! path with
  | None => (Err ErrNotFound, [])
  | Some info =>
  if (Size info =? 0)%N then (Err ErrEmptyFile, []) else
  match archive info with
  | None => (Err ErrNotZip, [])
  | Some files =>
  let fileMap := fileMap_of files in
  match fileMap !! "recording.tmcpr" with
  | None => (Err (ErrMissingFile "recording.tmcpr"), [])
  | Some recFile =>
  let l1 := if (UncompressedSize64 recFile =? 0)%N then [WarnEmptyRecording] else [] in
  match fileMap !! "metaData.json" with
  | None => (Err (ErrMissingFile "metaData.json"), l1)
  | Some metaFile =>
  match content metaFile with
  | OpenFails => (Err ErrOpenMeta, l1)
  | ReadFails => (Err ErrReadMeta, l1)
  | Bytes data =>
  match json_Unmarshal data with
  | None => (Err ErrParseMeta, l1)
  | Some meta =>
      let l2 := if String.eqb (FileFormat meta) "MCPR" then []
                else [WarnFileFormat (FileFormat meta)] in
      let l3 := if (FileFormatVersion meta <? 1) || (FileFormatVersion meta >? 15)
                then [WarnFormatVersion (FileFormatVersion meta)] else [] in
      let l4 := if Protocol meta =? 0 then [WarnProtocolZero] else [] in
      let l5 := if Duration meta =? 0 then [WarnDurationZero] else [] in
      let l6 := match fileMap !! "mods.json" with
                | Some _ => [] | None => [WarnMissingMods] end in
      let l7 := match fileMap !! "recording.tmcpr.crc32" with
                | Some _ => [] | None => [WarnMissingCrc32] end in
      (Ok tt,
       l1 ++ l2 ++ l3 ++ l4 ++ l5 ++ l6 ++ l7 ++
       [Validated path (MCVersion meta) (Protocol meta) (Duration meta) (Size info)])
  end end end end end end.

(** The same checks with the log output discarded. *)
Definition ValidateFileQuiet (fs : gmap string DiskFile) (path : string)
  : result unit * list LogLine :=
  (fst (ValidateFile fs path), []).

(** What the doc comment of [ValidateFile] and the README describe, not
    what [Close] does: closing a writer made by [Create] validates the file
    just written and returns the validator's error.  [fs] is what the disk
    holds when the archive and the file have been closed. *)
Definition Close_then_validate (fs : gmap string DiskFile) (w : Writer)
  : result unit * Writer :=
  match Close w with
  | (Ok _, w') =>
      match file w' with
      | Some f => (fst (ValidateFile fs (fpath f)), w')
      | None => (Ok tt, w')
      end
  | (Err e, w') => (Err e, w')
  end.

End Validate.

End Mcpr.

(** ** Package recorder: the synchronized facade

    Every method holds the mutex from entry to return, so each is one
    atomic step on the recorder. *)

Module Recorder.

Record Recorder : Type := mkRecorder {
  w : Mcpr.Writer;
  start : Z;
  closed : bool }.

Definition New (w : Mcpr.Writer) (now : Z) : Recorder := mkRecorder w now false.

Definition NewFile (f : result Mcpr.OsFile) (out : list bool) (now : Z)
  (meta : Mcpr.Meta) : result Recorder :=
  match Mcpr.Create f out now meta with
  | Err e => Err e
  | Ok w => Ok (mkRecorder w now false)
  end.

Definition RecordAt (ts : N) (id : Z) (payload : list byte) (r : Recorder)
  : result unit * Recorder :=
  if closed r then (Ok tt, r)
  else
    let '(res, w') := Mcpr.WritePacket ts id payload (w r) in
    (res, mkRecorder w' (start r) (closed r)).

(** [now]: the clock when the call is made. *)
Definition RecordNow (now : Z) (id : Z) (payload : list byte) (r : Recorder)
  : result unit * Recorder :=
  if closed r then (Ok tt, r)
  else
    let ts := uint32 (now - start r) in
    let '(res, w') := Mcpr.WritePacket ts id payload (w r) in
    (res, mkRecorder w' (start r) (closed r)).

Definition Close {J : Mcpr.JSON} (r : Recorder) : result unit * Recorder :=
  if closed r then (Ok tt, r)
  else
    let '(res, w') := Mcpr.Close (w r) in
    (res, mkRecorder w' (start r) true).

Definition SetSelfID (id : Z) (r : Recorder) : Recorder :=
  if closed r then r
  else mkRecorder (Mcpr.SetSelfID id (w r)) (start r) (closed r).

Definition AddPlayer (uuid : string) (r : Recorder) : Recorder :=
  if closed r then r
  else mkRecorder (Mcpr.AddPlayer uuid (w r)) (start r) (closed r).

End Recorder.

(** ** examples/proxyrec: the frame parser *)

Module Proxyrec.

Import Mcpr.

(** [compress/zlib] as the parser uses it: [zlib.NewReader] on the bytes
    after the size field and [io.Copy] of all it yields; [None] when either
    one returns an error. *)
Class Zlib : Type := { zlib_inflate : list byte -> option (list byte) }.

Definition maxFrame : Z := Z.shiftl 8 20.

Record Config : Type := mkConfig {
  assumeNoCompress : bool;
  guessCompress : bool;
  forceThreshold : Z }.

(** The state of the loop of [parseAndRecord]: the bytes still to come from
    the reader, the compression flag, the writer, and how many packets were
    stamped so far.  [clock k] is what [time.Since(start).Milliseconds()]
    gives when the packet of index [k] is stamped. *)
Record PState : Type := mkPState {
  br : list byte;
  compressionEnabled : bool;
  wr : Writer;
  tick : nat }.

(** One round ends in one of three ways: the loop goes on; the reader ran
    dry (on a reader at its end the error is returned, on a live pipe the
    read blocks); the function returns an error. *)
Inductive Round : Type :=
| Continue (s : PState)
| Starved (e : error) (w : Writer)
| Halt (e : error) (w : Writer).

Section Parser.
Context {Z0 : Zlib}.
Variable cfg : Config.
Variable clock : nat -> Z.

(** "Decode for recording": what [data] holds after the compression block. *)
Definition decode (enabled : bool) (frame : list byte) : list byte :=
  if negb (assumeNoCompress cfg) && enabled then
    match readVarInt frame with
    | Ok (uncompressedSize, zr) =>
        if uncompressedSize >? 0 then
          match zlib_inflate zr with
          | Some buf => buf
          | None => frame
          end
        else zr
    | Err _ => frame
    end
  else frame.

(** The flag after the heuristic has looked at [payload]. *)
Definition detect (enabled : bool) (payload : list byte) : bool :=
  if guessCompress cfg && negb enabled && negb (assumeNoCompress cfg) then
    if snd (singleVarInt payload) then true else enabled
  else enabled.

Definition round (s : PState) : Round :=
  match readVarInt (br s) with
  | Err ErrEOF => Starved ErrEOF (wr s)
  | Err e => Halt e (wr s)
  | Ok (frameLen, r1) =>
      if (frameLen <=? 0) || (frameLen >? maxFrame) then
        Halt (ErrInvalidFrameLength frameLen) (wr s)
      else
        let n := Z.to_nat frameLen in
        if (length r1 <? n)%nat then
          Starved (if (length r1 =? 0)%nat then ErrEOF else ErrUnexpectedEOF) (wr s)
        else
          let frame := firstn n r1 in
          let data := decode (compressionEnabled s) frame in
          match readVarInt data with
          | Err e => Halt e (wr s)
          | Ok (pid64, payload) =>
              let pid := int32 pid64 in
              let enabled := detect (compressionEnabled s) payload in
              let ts := uint32 (clock (tick s)) in
              match WritePacket ts pid payload (wr s) with
              | (Err e, w') => Halt e w'
              | (Ok _, w') => Continue (mkPState (skipn n r1) enabled w' (S (tick s)))
              end
          end
  end.

(** The [for] loop: [None] only when the rounds allowed are used up. *)
Fixpoint rounds (fuel : nat) (s : PState) : option Round :=
  match fuel with
  | O => None
  | S fuel' =>
      match round s with
      | Continue s' => rounds fuel' s'
      | r => Some r
      end
  end.

(** [k] rounds in a row that all go on. *)
Fixpoint advance (k : nat) (s : PState) : option PState :=
  match k with
  | O => Some s
  | S k' =>
      match round s with
      | Continue s' => advance k' s'
      | _ => None
      end
  end.

Definition init (r : list byte) (w : Writer) : PState :=
  mkPState r (forceThreshold cfg >=? 0) w 0.

(** [parseAndRecord] on a reader that delivers [r] and then its end: the
    error returned and the writer as it is left.  Each round takes at least
    two bytes, so the rounds allowed are never used up. *)
Definition parseAndRecord (r : list byte) (w : Writer) : option (error * Writer) :=
  match rounds (S (length r)) (init r w) with
  | Some (Halt e w') | Some (Starved e w') => Some (e, w')
  | _ => None
  end.

(** On a pipe that is still open: has the function returned after the
    reader delivered [r] so far? *)
Definition returned (r : list byte) (w : Writer) : bool :=
  match rounds (S (length r)) (init r w) with
  | Some (Halt _ _) => true
  | _ => false
  end.

End Parser.

End Proxyrec.

(** ** examples/proxyrec: forwarding with a tee *)

Module Tee.

Import Mcpr Proxyrec.

(** A call of [Write] on the tee returns, with or without an error, or never
    returns. *)
Inductive WriteOutcome (T : Type) : Type :=
| Wrote (t : T)
| Failed (e : error) (t : T)
| Blocks.
Arguments Wrote {T} t.
Arguments Failed {T} e t.
Arguments Blocks {T}.

Class TeeWriter (T : Type) : Type := { tee_Write : list byte -> T -> WriteOutcome T }.

(** The client connection: what was delivered, and the outcomes of the
    coming writes. *)
Record Dst : Type := mkDst { delivered : list byte; dst_faults : list bool }.

Definition dst_Write (p : list byte) (d : Dst) : result unit * Dst :=
  let '(f, fs) := next_fault (dst_faults d) in
  if f then (Err ErrSink, mkDst (delivered d) fs)
  else (Ok tt, mkDst (delivered d ++ p) fs).

(** [forwardWithTee] either returns an error, or stays for ever in a call
    that does not return, with some reads of the source never made. *)
Inductive Outcome (T : Type) : Type :=
| Returned (e : error) (d : Dst) (tee : option T)
| Stuck (d : Dst) (unread : list (list byte)).
Arguments Returned {T} e d tee.
Arguments Stuck {T} d unread.

(** [src]: the chunks the successive reads of the source return, before the
    last read returns [src_err] and no bytes. *)
Fixpoint forwardWithTee {T} `{TeeWriter T} (src : list (list byte))
  (src_err : error) (dst : Dst) (tee : option T) : Outcome T :=
  match src with
  | [] => Returned src_err dst tee
  | chunk :: src' =>
      if (0 <? length chunk)%nat then
        match dst_Write chunk dst with
        | (Err werr, d') => Returned werr d' tee
        | (Ok _, d') =>
            match tee with
            | None => forwardWithTee src' src_err d' None
            | Some t =>
                match tee_Write chunk t with
                | Wrote t' => forwardWithTee src' src_err d' (Some t')
                | Failed _ t' => forwardWithTee src' src_err d' (Some t')
                | Blocks => Stuck d' src'
                end
            end
        end
      else forwardWithTee src' src_err dst tee
  end.

(** [io.Pipe]: a write is handed over to the reading side directly, there is
    no buffer.  It returns once the reader has taken all its bytes, fails
    with [io.ErrClosedPipe] when the read side was closed, and otherwise
    waits: for ever, when the goroutine that was reading has returned.
    [taken] are the bytes handed over so far; [reader_done] tells, from the
    bytes handed over, whether the reading goroutine has returned. *)
Record Pipe : Type := mkPipe {
  taken : list byte;
  read_closed : bool;
  reader_done : list byte -> bool }.

Definition pipe_Write (p : list byte) (pp : Pipe) : WriteOutcome Pipe :=
  if read_closed pp then Failed ErrClosedPipe pp
  else if reader_done pp (taken pp) then Blocks
  else Wrote (mkPipe (taken pp ++ p) (read_closed pp) (reader_done pp)).

#[export] Instance pipe_writer : TeeWriter Pipe := {| tee_Write := pipe_Write |}.

Definition io_Pipe (reader_done : list byte -> bool) : Pipe :=
  mkPipe [] false reader_done.

(** The server-to-client goroutine of [main]: the pipe feeds
    [parseAndRecord]; nothing closes its read side. *)
Definition server_to_client {Z0 : Zlib} (cfg : Config) (clock : nat -> Z)
  (w : Writer) (upstream : list (list byte)) (upstream_err : error) (conn : Dst)
  : Outcome Pipe :=
  forwardWithTee upstream upstream_err conn
                 (Some (io_Pipe (fun r => returned cfg clock r w))).

End Tee.

(** ** Reading a recording back *)

Module Replay.

Record Message : Type := mkMessage {
  timestampMs : N;
  id : Z;
  payload : list byte }.

Definition valid_message (m : Message) : Prop :=
  is_uint32 (timestampMs m) /\ is_int32 (id m) /\
  (N.of_nat (length (encodeVarInt (id m)) + length (payload m)) < 2 ^ 32)%N.

(** Four bytes, most significant first. *)
Definition be32 (v : N) : list byte :=
  [ (v / 2 ^ 24) mod 256; (v / 2 ^ 16) mod 256; (v / 2 ^ 8) mod 256; v mod 256 ]%N.

Definition of_be32 (b : list byte) : N :=
  fold_left (fun acc x => acc * 256 + x)%N b 0%N.

(** The layout of one message in the recording entry, as the format is
    documented: timestamp, length of id and payload, id, payload. *)
Definition layout (m : Message) : list byte :=
  be32 (timestampMs m)
  ++ be32 (N.of_nat (length (encodeVarInt (id m)) + length (payload m)))
  ++ encodeVarInt (id m) ++ payload m.

(** Modelled from the spec: a reader of the recording entry, which the
    repository does not have.  It follows the documented layout: two
    big-endian 32-bit fields, then as many bytes as the second one says, of
    which the leading VarInt is the id and the rest the payload; the stream
    ends where the entry ends. *)
Fixpoint read_messages (fuel : nat) (bs : list byte) : option (list Message) :=
  match bs, fuel with
  | [], _ => Some []
  | _, O => None
  | _, S fuel' =>
      if (length bs <? 8)%nat then None
      else
        let ts := of_be32 (firstn 4 bs) in
        let len := N.to_nat (of_be32 (firstn 4 (skipn 4 bs))) in
        let body := skipn 8 bs in
        if (length body <? len)%nat then None
        else
          match readVarInt (firstn len body) with
          | Err _ => None
          | Ok (v, payload) =>
              match read_messages fuel' (skipn len body) with
              | Some ms => Some (mkMessage ts (int32 v) payload :: ms)
              | None => None
              end
          end
  end.

Definition read_recording (bs : list byte) : option (list Message) :=
  read_messages (length bs) bs.

(** Writing a list of messages, in order, stopping at the first error. *)
Fixpoint write_all (ms : list Message) : Mcpr.IO unit :=
  match ms with
  | [] => Mcpr.io_ret tt
  | m :: ms' =>
      Mcpr.io_bind (Mcpr.WritePacket (timestampMs m) (id m) (payload m))
                   (fun _ => write_all ms')
  end.

(** The bytes of the recording entry of a writer. *)
Definition recording (w : Mcpr.Writer) : list byte :=
  match Mcpr.recw w with
  | Some h =>
      match Mcpr.entries (Mcpr.zw w) !! h with
      | Some e => Mcpr.Data e
      | None => []
      end
  | None => []
  end.

Definition max_timestamp (ms : list Message) : N :=
  fold_right (fun m acc => N.max (timestampMs m) acc) 0%N ms.

End Replay.

(** ** Sample values for the worked examples *)

Module Sample.

Import Mcpr.

(** A stand-in for [encoding/json] in the examples: the duration in decimal
    is all it writes, and it reads nothing back.  No statement below depends
    on it. *)
Definition json : JSON :=
  {| json_Marshal := fun m => bytes_of_string (Sprintf_d (Z.to_N (Duration m)));
     json_Unmarshal := fun _ => None |}.

Definition meta0 : Meta :=
  mkMeta false EmptyString EmptyString 0 0 EmptyString EmptyString 0 754
         EmptyString 0 [].

(** [NewWriter] on a sink without faults, at wall-clock time 1000. *)
Definition fresh : Writer :=
  mkWriter (mkZip [mkEntry "recording.tmcpr" []] true false false []
                  [CallCreate "recording.tmcpr"])
           (Some 0%nat)
           (mkMeta false EmptyString EmptyString 0 1000 EmptyString "MCPR" 14 754
                   EmptyString 0 [])
           0%N false None 0%N.

(** The same on a sink whose second operation fails. *)
Definition faulty : Writer :=
  mkWriter (mkZip [mkEntry "recording.tmcpr" []] true false false [true]
                  [CallCreate "recording.tmcpr"])
           (Some 0%nat)
           (mkMeta false EmptyString EmptyString 0 1000 EmptyString "MCPR" 14 754
                   EmptyString 0 [])
           0%N false None 0%N.

(** A decompressor that rejects whatever it is given. *)
Definition no_zlib : Proxyrec.Zlib := {| Proxyrec.zlib_inflate := fun _ => None |}.

Definition guessing : Proxyrec.Config := Proxyrec.mkConfig false true (-1).
Definition not_guessing : Proxyrec.Config := Proxyrec.mkConfig false false (-1).
Definition forced : Proxyrec.Config := Proxyrec.mkConfig false true 256.

(** Every packet stamped at 40 ms. *)
Definition clock40 : nat -> Z := fun _ => 40.

(** One frame of three bytes: packet id 3, then the VarInt 256 and nothing
    else. *)
Definition set_compression_frame : list byte := [3; 0x03; 0x80; 0x02]%N.

(** The state after the first round on that frame followed by a frame
    length of zero, with and without the heuristic. *)
Definition rejected_stream : list byte := set_compression_frame ++ [0; 9; 9]%N.

Definition after_guessing : Proxyrec.PState :=
  Eval vm_compute in
    match @Proxyrec.round no_zlib guessing clock40
                          (Proxyrec.init guessing rejected_stream fresh) with
    | Proxyrec.Continue s => s
    | _ => Proxyrec.init guessing rejected_stream fresh
    end.

Definition after_not_guessing : Proxyrec.PState :=
  Eval vm_compute in
    match @Proxyrec.round no_zlib not_guessing clock40
                          (Proxyrec.init not_guessing rejected_stream fresh) with
    | Proxyrec.Continue s => s
    | _ => Proxyrec.init not_guessing rejected_stream fresh
    end.

(** A frame of three bytes read with compression on: size field 5, then two
    bytes that do not inflate; and the state after the round on it. *)
Definition broken_frame : list byte := [3; 0x05; 0xAA; 0xBB]%N.

Definition after_broken : Proxyrec.PState :=
  Eval vm_compute in
    match @Proxyrec.round no_zlib forced clock40
                          (Proxyrec.init forced broken_frame fresh) with
    | Proxyrec.Continue s => s
    | _ => Proxyrec.init forced broken_frame fresh
    end.

(** [Create] of the file [out.mcpr] at the same time, and that writer after
    a [Close] that met no error. *)
Definition created : Writer := set_file (Some (mkFile "out.mcpr" false)) fresh.

Definition created_finalized : Writer :=
  Eval vm_compute in snd (@Close json created).

(** A disk on which the bytes at [out.mcpr] do not open as an archive. *)
Definition damaged_disk : gmap string DiskFile :=
  {[ "out.mcpr"%string := mkDisk 4096%N None ]}.

(** [faulty] after the [Close] that meets the fault. *)
Definition failed : Writer := Eval vm_compute in snd (@Close json faulty).

(** [fresh] after a [Close] that met no error. *)
Definition finalized : Writer := Eval vm_compute in snd (@Close json fresh).

(** The two messages of the documented example, [fresh] after they were
    written, and that writer after a [Close] that met no error. *)
Definition two_messages : list Replay.Message :=
  [ Replay.mkMessage 0%N 0x26 [0x0A; 0xFF; 0xEE]%N;
    Replay.mkMessage 1500%N 0x3A [0xDE; 0xAD; 0xBE; 0xEF]%N ].

Definition recorded : Writer :=
  Eval vm_compute in snd (Replay.write_all two_messages fresh).

Definition recorded_finalized : Writer :=
  Eval vm_compute in snd (@Close json recorded).

End Sample.

(** ** examples/proxyrec: the wire side

    [writeVarInt] fills a buffer of five bytes by index and hands the part
    it filled to the writer; [None] stands for the panic of an index out of
    range.  What is kept of the call is the bytes handed to [w.Write], whose
    error is the one returned. *)

Module Wire.

Equations? writeVarInt_loop (uv : N) (buf : list byte) (i : nat)
  : option (list byte * nat) by wf (N.to_nat uv) lt :=
  writeVarInt_loop uv buf i with N.eq_dec (N.shiftr uv 7%N) 0%N => {
    | left _ :=
        if (i <? length buf)%nat
        then Some (<[i := N.land uv 0x7F%N]> buf, S i)
        else None;
    | right _ :=
        if (i <? length buf)%nat
        then writeVarInt_loop (N.shiftr uv 7%N)
                              (<[i := N.lor (N.land uv 0x7F%N) 0x80%N]> buf) (S i)
        else None }.
Proof.
  change (N.div2 (N.div2 (N.div2 (N.div2 (N.div2 (N.div2 (N.div2 uv)))))))
    with (N.shiftr uv 7) in *.
  rewrite N.shiftr_div_pow2 in *.
  assert (uv <> 0)%N by (intros ->; auto).
  assert (uv / 2 ^ 7 < uv)%N by (apply N.div_lt; lia).
  lia.
Qed.

(** A byte with the continuation bit set. *)
Definition continues (b : byte) : Prop := N.land b 0x80%N <> 0%N.

Definition writeVarInt (v : Z) : option (list byte) :=
  match writeVarInt_loop (uint32 v) (replicate 5 0%N) 0 with
  | Some (buf, i) => Some (firstn i buf)
  | None => None
  end.

(** A packet on the wire while compression is off, as [parseAndRecord]
    takes it apart: the length as a VarInt, then the id as a VarInt and the
    payload. *)
Definition frame (id : Z) (payload : list byte) : list byte :=
  encodeVarInt (Z.of_nat (length (encodeVarInt id ++ payload)))
  ++ encodeVarInt id ++ payload.

(** The same once compression is on: the size field, then the literal id
    and payload when the size is zero, or the compressed block. *)
Definition frame_sized (size : Z) (block : list byte) : list byte :=
  encodeVarInt (Z.of_nat (length (encodeVarInt size ++ block)))
  ++ encodeVarInt size ++ block.

(** The messages [parseAndRecord] stamps for a list of packets, the first
    one with the clock reading of index [k]. *)
Fixpoint stamped (clock : nat -> Z) (k : nat) (ps : list (Z * list byte))
  : list Replay.Message :=
  match ps with
  | [] => []
  | (id, payload) :: ps' =>
      Replay.mkMessage (uint32 (clock k)) id payload :: stamped clock (S k) ps'
  end.

(** Compression handling is off and stays off: the caller ruled it out, or
    asked for no guessing while the flag is unset. *)
Definition stays_off (cfg : Proxyrec.Config) (enabled : bool) : Prop :=
  Proxyrec.assumeNoCompress cfg = true \/
  (Proxyrec.guessCompress cfg = false /\ enabled = false).

Definition fits_frame (p : Z * list byte) : Prop :=
  is_int32 (fst p) /\
  Z.of_nat (length (encodeVarInt (fst p) ++ snd p)) <= Proxyrec.maxFrame.

End Wire.

(** ** cmd/mcpr-create and cmd/mcpr-validate *)

Module Cmd.

Import Mcpr.

(** How [mcpr-create] ends: one of its three [log.Fatalf], which leave the
    process at once, or the return of [main] after the deferred [Close]. *)
Inductive CreateEnd : Type :=
| FatalCreate (e : error)
| FatalWrite (e : error) (w : Writer)
| FatalClose (e : error) (w : Writer)
| Wrote (w : Writer).

Section Create.
Context {J : JSON}.

(** [main] of mcpr-create after the flags are parsed: [f] is what
    [os.Create] returned, [pkts] the packets of the command line. *)
Definition mcpr_create (f : result OsFile) (out : list bool) (now : Z)
  (protocol : Z) (generator : string) (pkts : list Replay.Message) : CreateEnd :=
  let meta := mkMeta false EmptyString EmptyString 0 0 EmptyString EmptyString 0
                     protocol generator 0 [] in
  match Create f out now meta with
  | Err e => FatalCreate e
  | Ok w =>
      match Replay.write_all pkts w with
      | (Err e, w') => FatalWrite e w'
      | (Ok _, w') =>
          match Close w' with
          | (Err e, w'') => FatalClose e w''
          | (Ok _, w'') => Wrote w''
          end
      end
  end.

(** The exit code of mcpr-validate for the files named on the command line;
    the messages it prints are left out. *)
Definition validate_step (quiet : bool) (fs : gmap string DiskFile)
  (exitCode : Z) (file : string) : Z :=
  match fs !! file with
  | None => 1
  | Some _ =>
      match fst (if quiet then ValidateFileQuiet fs file else ValidateFile fs file) with
      | Err _ => 1
      | Ok _ => exitCode
      end
  end.

Definition mcpr_validate (quiet : bool) (fs : gmap string DiskFile)
  (files : list string) : Z :=
  match files with
  | [] => 1
  | _ => fold_left (validate_step quiet fs) files 0
  end.

End Create.

(** What [zip.OpenReader] shows of an entry that [zip.Writer] wrote and
    that reached the disk whole. *)
Definition as_read (e : Entry) : ZipFile :=
  mkZipFile (Name e) (N.of_nat (length (Data e))) (Bytes (Data e)).

(** The log lines that are warnings. *)
Definition is_warning (l : LogLine) : Prop :=
  match l with
  | Validated _ _ _ _ _ => False
  | _ => True
  end.

End Cmd.

(** ** The writers a caller can hold before [Close]

    A writer comes from [NewWriter] or [Create]; the caller then calls
    [WritePacket], [SetSelfID], [AddPlayer] and [CreateEntry] in any order,
    whatever they return, and writes to the entries [CreateEntry] gave it. *)

Module Lifecycle.

Import Mcpr.

Inductive Reachable : Writer -> Prop :=
| R_NewWriter out now m w :
    NewWriter out now m = Ok w -> Reachable w
| R_Create f out now m w :
    Create f out now m = Ok w -> Reachable w
| R_WritePacket ts packetID payload w r w' :
    Reachable w -> WritePacket ts packetID payload w = (r, w') -> Reachable w'
| R_SetSelfID id w :
    Reachable w -> Reachable (SetSelfID id w)
| R_AddPlayer uuid w :
    Reachable w -> Reachable (AddPlayer uuid w)
| R_CreateEntry name w r w' :
    Reachable w -> CreateEntry name w = (r, w') -> Reachable w'
| R_entry_Write h p w r w' :
    Reachable w -> recw w <> Some h -> io_zip (zip_Write h p) w = (r, w') ->
    Reachable w'.

(** The checksum of the bytes a recording entry holds. *)
Definition checksum (bs : list byte) : N := crc32_Update 0%N bs.

(** A writer that takes every packet: it is open, the recording entry is
    the one the archive is writing, and the sink has no fault left. *)
Definition ready (w : Writer) : Prop :=
  closed w = false /\ last_open (zw w) = true /\ faults (zw w) = [] /\
  exists h, recw w = Some h /\ S h = length (entries (zw w)).

(** What holds of every such writer: it is open, so is the archive, the
    recording handle names the entry [recording.tmcpr], and the running
    checksum is that of the bytes the entry holds. *)
Definition sound (w : Writer) : Prop :=
  closed w = false /\ zip_closed (zw w) = false /\
  (exists h, recw w = Some h /\
             (Name <$> entries (zw w)) !! h = Some "recording.tmcpr"%string) /\
  crc32 w = checksum (Replay.recording w).

End Lifecycle.

(** ** More sample values *)

Module Sample2.

Import Mcpr.

(** A second stand-in for [encoding/json]: it writes the duration in
    decimal and reads it back into otherwise empty metadata. *)
Definition digits_json : JSON :=
  {| json_Marshal := fun m => bytes_of_string (Sprintf_d (Z.to_N (Duration m)));
     json_Unmarshal := fun b =>
       match NilZero.uint_of_string (string_of_list_ascii (map ascii_of_N b)) with
       | Some u => Some (set_Duration (Z.of_N (N.of_uint u)) Sample.meta0)
       | None => None
       end |}.

Definition out_file : OsFile := mkFile "out.mcpr" false.

(** What mcpr-create leaves for the two packets of the documented example,
    and a disk that holds it. *)
Definition created : Writer :=
  Eval vm_compute in
    match @Cmd.mcpr_create digits_json (Ok out_file) [] 1000 754 "mc-replay-go"
                           Sample.two_messages with
    | Cmd.Wrote w => w
    | _ => Sample.fresh
    end.

Definition healthy_disk : gmap string DiskFile :=
  {[ "out.mcpr"%string := mkDisk 612%N (Some (Cmd.as_read <$> entries (zw created))) ]}.

(** A recorder on a new writer, and one on a sink whose second operation
    fails, both started at time 0. *)
Definition recorder : Recorder.Recorder := Recorder.mkRecorder Sample.fresh 0 false.
Definition faulty_recorder : Recorder.Recorder :=
  Recorder.mkRecorder Sample.faulty 0 false.

(** Two packets as frames on the wire, compression off. *)
Definition packets : list (Z * list byte) :=
  [ (0x26, [0x0A; 0xFF; 0xEE]%N); (0x3A, [0xDE; 0xAD; 0xBE; 0xEF]%N) ].

Definition wire : list byte :=
  Eval vm_compute in concat (map (fun p => Wire.frame (fst p) (snd p)) packets).

Definition no_compress : Proxyrec.Config := Proxyrec.mkConfig true true (-1).

(** A frame read with compression on whose size field is zero, and the
    writer after its packet. *)
Definition literal_frame : list byte := [3; 0x00; 0x26; 0x0A]%N.

Definition after_literal : Writer :=
  Eval vm_compute in snd (WritePacket 40%N 0x26 [0x0A]%N Sample.fresh).

End Sample2.

(** * Properties *)

(** ** VarInt codec *)

Section VarIntFacts.

Example enc_300 : encodeVarInt 300 = [0xAC; 0x02]%N.
Proof. reflexivity. Qed.

Example enc_m1 : encodeVarInt (-1) = [0xFF; 0xFF; 0xFF; 0xFF; 0x0F]%N.
Proof. reflexivity. Qed.

Example dec_m1 : readVarInt (encodeVarInt (-1)) = Ok (4294967295, []).
Proof. reflexivity. Qed.

Lemma encodeVarInt_loop_unfold (uv : N) (out : list byte) :
  encodeVarInt_loop uv out =
  if (N.shiftr uv 7 =? 0)%N then out ++ [N.land uv 0x7F%N]
  else encodeVarInt_loop (N.shiftr uv 7) (out ++ [N.lor (N.land uv 0x7F%N) 0x80%N]).
Proof.
  rewrite encodeVarInt_loop_equation_1.
  destruct (N.eq_dec (N.shiftr uv 7) 0%N) as [e|n]; cbn.
  - rewrite e. reflexivity.
  - apply N.eqb_neq in n. rewrite n. reflexivity.
Qed.

(** The accumulator only ever grows at its end. *)
Lemma encodeVarInt_loop_acc (uv : N) :
  forall out, encodeVarInt_loop uv out = out ++ encodeVarInt_loop uv [].
Proof.
  induction uv as [uv IH] using (well_founded_induction N.lt_wf_0).
  intros out.
  rewrite (encodeVarInt_loop_unfold uv out), (encodeVarInt_loop_unfold uv []).
  destruct (N.shiftr uv 7 =? 0)%N eqn:E; [reflexivity|].
  apply N.eqb_neq in E.
  assert (N.shiftr uv 7 < uv)%N.
  { rewrite N.shiftr_div_pow2 in *. apply N.div_lt; [|lia].
    destruct uv; [exfalso; apply E; reflexivity | lia]. }
  rewrite (IH _ H (out ++ _)), (IH _ H ([] ++ _)).
  rewrite <- app_assoc. reflexivity.
Qed.

Lemma shiftr7_lt (uv : N) (i : nat) :
  (uv < 2 ^ (7 * N.of_nat (S i)))%N -> (N.shiftr uv 7 < 2 ^ (7 * N.of_nat i))%N.
Proof.
  intros H. rewrite N.shiftr_div_pow2.
  apply N.Div0.div_lt_upper_bound.
  rewrite <- N.pow_add_r.
  replace (7 + 7 * N.of_nat i)%N with (7 * N.of_nat (S i))%N by lia.
  exact H.
Qed.

Lemma land_lor_128 (uv : N) :
  N.land (N.lor (N.land uv 0x7F) 0x80) 0x80 = 0x80%N /\
  N.land (N.lor (N.land uv 0x7F) 0x80) 0x7F = N.land uv 0x7F.
Proof.
  split; apply N.bits_inj; intros k;
    repeat rewrite ?N.land_spec, ?N.lor_spec.
  - destruct (N.eq_dec k 7%N) as [->|Hk].
    + cbn. rewrite andb_true_r, orb_true_r. reflexivity.
    + replace (N.testbit 128 k) with false; [apply andb_false_r|].
      symmetry. change 128%N with (2 ^ 7)%N. apply N.pow2_bits_false. congruence.
  - change 127%N with (N.ones 7). change 128%N with (2 ^ 7)%N.
    destruct (N.lt_ge_cases k 7%N).
    + rewrite N.ones_spec_low by lia. rewrite N.pow2_bits_false by lia.
      rewrite !andb_true_r, orb_false_r. reflexivity.
    + rewrite N.ones_spec_high by lia. rewrite !andb_false_r. reflexivity.
Qed.

Lemma land_small_128 (uv : N) : N.land (N.land uv 0x7F) 0x80 = 0%N.
Proof.
  apply N.bits_inj; intros k. rewrite !N.land_spec, N.bits_0.
  change 127%N with (N.ones 7). change 128%N with (2 ^ 7)%N.
  destruct (N.eq_dec k 7%N) as [->|Hk].
  - rewrite N.ones_spec_high by lia. rewrite andb_false_r. reflexivity.
  - rewrite N.pow2_bits_false by congruence. apply andb_false_r.
Qed.

(** Splitting off the low group loses nothing. *)
Lemma group_split (a s num : Z) :
  0 <= a -> 0 <= s ->
  Z.lor (Z.lor num (Z.shiftl (Z.land a 0x7F) s)) (Z.shiftl (Z.shiftr a 7) (s + 7))
  = Z.lor num (Z.shiftl a s).
Proof.
  intros Ha Hs.
  rewrite <- Z.lor_assoc. f_equal.
  rewrite (Z.add_comm s 7), <- Z.shiftl_shiftl by lia.
  rewrite <- Z.shiftl_lor. f_equal.
  change 127 with (Z.ones 7).
  rewrite <- Z.ldiff_ones_r by lia.
  rewrite Z.lor_comm. apply Z.lor_ldiff_and.
Qed.

Lemma readVarInt_loop_encode (i : nat) :
  forall (uv : N) (num : Z) (shift : N) (rest : list byte),
    (uv < 2 ^ (7 * N.of_nat i))%N -> i <> O ->
    readVarInt_loop i num shift (encodeVarInt_loop uv [] ++ rest)
    = Ok (Z.lor num (Z.shiftl (Z.of_N uv) (Z.of_N shift)), rest).
Proof.
  induction i as [|i IH]; intros uv num shift rest Hlt Hi; [congruence|].
  rewrite encodeVarInt_loop_unfold.
  destruct (N.shiftr uv 7 =? 0)%N eqn:E.
  - apply N.eqb_eq in E. cbn [app readVarInt_loop].
    rewrite land_small_128. cbn [N.eqb].
    do 3 f_equal.
    replace (N.land (N.land uv 127) 127) with uv; [reflexivity|].
    rewrite <- N.land_assoc, N.land_diag.
    change 127%N with (N.ones 7). rewrite N.land_ones.
    rewrite N.shiftr_div_pow2 in E.
    symmetry. apply N.mod_small. apply N.div_small_iff in E; lia.
  - apply N.eqb_neq in E.
    rewrite encodeVarInt_loop_acc. cbn [app readVarInt_loop].
    destruct (land_lor_128 uv) as [-> ->]. cbn [N.eqb Pos.eqb].
    pose proof (shiftr7_lt uv i Hlt) as Hlt'.
    rewrite IH; [| exact Hlt' |].
    + do 2 f_equal.
      rewrite N2Z.inj_land, N2Z.inj_shiftr, N2Z.inj_add.
      apply group_split; lia.
    + intros ->. cbn in Hlt'. lia.
Qed.

Lemma int32_uint32 (v : Z) : is_int32 v -> int32 (Z.of_N (uint32 v)) = v.
Proof.
  unfold is_int32, int32, uint32. intros H.
  rewrite Z2N.id by (apply Z.mod_pos_bound; lia).
  rewrite Z.mod_mod by lia.
  destruct (Z.ltb_spec (v mod 2 ^ 32) (2 ^ 31)) as [Hlt|Hge].
  - destruct (Z.lt_ge_cases v 0).
    + rewrite <- (Z.mod_add v 1) in Hlt by lia.
      rewrite Z.mod_small in Hlt by lia. lia.
    + apply Z.mod_small. lia.
  - destruct (Z.lt_ge_cases v 0).
    + rewrite <- (Z.mod_add v 1) by lia. rewrite Z.mod_small by lia. lia.
    + rewrite Z.mod_small in Hge by lia. lia.
Qed.

Lemma uint32_range (v : Z) : is_uint32 (uint32 v).
Proof.
  unfold is_uint32, uint32.
  pose proof (Z.mod_pos_bound v (2 ^ 32) ltac:(lia)). lia.
Qed.

(** The encoding has as many bytes as the value has 7-bit groups: at least
    one, no more than [i] when the value fits in [i] groups, and more than
    one only when the groups before the last cannot hold it. *)
Lemma encode_length (i : nat) :
  forall uv : N,
    (uv < 2 ^ (7 * N.of_nat i))%N -> i <> O ->
    (1 <= length (encodeVarInt_loop uv []) <= i)%nat /\
    (length (encodeVarInt_loop uv []) = 1%nat \/
     (2 ^ (7 * N.of_nat (length (encodeVarInt_loop uv []) - 1)) <= uv)%N).
Proof.
  induction i as [|i IH]; intros uv Hlt Hi; [congruence|].
  rewrite encodeVarInt_loop_unfold.
  destruct (N.shiftr uv 7 =? 0)%N eqn:E.
  - cbn. split; [lia | left; reflexivity].
  - apply N.eqb_neq in E.
    rewrite encodeVarInt_loop_acc. cbn [app length].
    pose proof (shiftr7_lt uv i Hlt) as Hlt'.
    assert (Hi' : i <> O) by (intros ->; cbn in Hlt'; lia).
    destruct (IH _ Hlt' Hi') as [Hlen Hmin].
    split; [lia | right].
    set (k := length (encodeVarInt_loop (N.shiftr uv 7) [])) in *.
    replace (S k - 1)%nat with k by lia.
    rewrite N.shiftr_div_pow2 in Hmin, E.
    assert (H7 : (2 ^ 7 * (uv / 2 ^ 7) <= uv)%N)
      by (apply N.Div0.mul_div_le).
    change (2 ^ 7)%N with 128%N in *.
    destruct Hmin as [Hk|Hk].
    + rewrite Hk. change (2 ^ (7 * N.of_nat 1))%N with 128%N.
      clear - E H7. generalize dependent (uv / 128)%N. intros q; lia.
    + replace (7 * N.of_nat k)%N with (7 + 7 * N.of_nat (k - 1))%N by lia.
      rewrite N.pow_add_r. change (2 ^ 7)%N with 128%N.
      apply N.le_trans with (128 * (uv / 128))%N; [|exact H7].
      apply N.mul_le_mono_l. exact Hk.
Qed.

(** A successful read takes between one and [i] bytes off the front. *)
Lemma readVarInt_loop_consumes (i : nat) :
  forall num shift r v rest,
    readVarInt_loop i num shift r = Ok (v, rest) ->
    exists pre, r = pre ++ rest /\ (1 <= length pre <= i)%nat.
Proof.
  induction i as [|i IH]; intros num shift r v rest H; [discriminate|].
  cbn [readVarInt_loop] in H.
  destruct r as [|b r']; [discriminate|].
  destruct (N.land b 128 =? 0)%N.
  - injection H as _ <-. exists [b]. split; [reflexivity | cbn; lia].
  - apply IH in H as (pre & -> & Hlen).
    exists (b :: pre). split; [reflexivity | cbn; lia].
Qed.

Lemma lor_below (a b n : Z) :
  0 <= n -> 0 <= a < 2 ^ n -> 0 <= b < 2 ^ n -> 0 <= Z.lor a b < 2 ^ n.
Proof.
  intros Hn Ha Hb.
  assert (H0 : 0 <= Z.lor a b) by (apply Z.lor_nonneg; lia).
  split; [exact H0|].
  destruct (Z.eq_dec (Z.lor a b) 0) as [->|Hne]; [lia|].
  apply Z.log2_lt_pow2; [lia|].
  rewrite Z.log2_lor by lia.
  destruct (Z.eq_dec a 0) as [->|Ha0]; destruct (Z.eq_dec b 0) as [->|Hb0].
  - exfalso. apply Hne. reflexivity.
  - cbn [Z.log2]. rewrite Z.max_r by apply Z.log2_nonneg.
    apply Z.log2_lt_pow2; lia.
  - cbn [Z.log2]. rewrite Z.max_l by apply Z.log2_nonneg.
    apply Z.log2_lt_pow2; lia.
  - apply Z.max_lub_lt; apply Z.log2_lt_pow2; lia.
Qed.

(** What a read returns fits in the groups it took. *)
Lemma readVarInt_loop_value (i : nat) :
  forall num shift r v rest,
    readVarInt_loop i num shift r = Ok (v, rest) ->
    0 <= num < 2 ^ Z.of_N shift ->
    0 <= v < 2 ^ (Z.of_N shift + 7 * Z.of_nat (length r - length rest)).
Proof.
  induction i as [|i IH]; intros num shift r v rest H Hnum; [discriminate|].
  cbn [readVarInt_loop] in H.
  destruct r as [|b r']; [discriminate|].
  assert (Hg : 0 <= Z.of_N (N.land b 127) < 2 ^ 7).
  { change 127%N with (N.ones 7). rewrite N.land_ones.
    assert (b mod 2 ^ 7 < 2 ^ 7)%N by (apply N.mod_upper_bound; discriminate).
    change (2 ^ 7) with 128. change (2 ^ 7)%N with 128%N in *.
    generalize dependent (b mod 128)%N. intros g ?; lia. }
  assert (Hnum' : 0 <= Z.lor num (Z.shiftl (Z.of_N (N.land b 127)) (Z.of_N shift))
                  < 2 ^ (Z.of_N shift + 7)).
  { apply lor_below; [lia | |].
    - split; [lia|]. rewrite Z.pow_add_r by lia. change (2 ^ 7) with 128.
      assert (0 < 2 ^ Z.of_N shift) by (apply Z.pow_pos_nonneg; lia). nia.
    - rewrite Z.shiftl_mul_pow2 by lia. rewrite Z.pow_add_r by lia.
      assert (0 < 2 ^ Z.of_N shift) by (apply Z.pow_pos_nonneg; lia).
      split; [nia|]. rewrite Z.mul_comm. apply Z.mul_lt_mono_pos_l; lia. }
  destruct (N.land b 128 =? 0)%N.
  - injection H as <- <-. cbn [length].
    replace (S (length r') - length r')%nat with 1%nat by lia.
    exact Hnum'.
  - pose proof (readVarInt_loop_consumes _ _ _ _ _ _ H) as (pre & Hr & Hlen).
    apply IH in H; [| rewrite N2Z.inj_add; exact Hnum'].
    subst r'. cbn [length]. rewrite length_app in *.
    match goal with
    | |- _ <= _ < 2 ^ ?e =>
        match type of H with
        | _ <= _ < 2 ^ ?e' => replace e with e' by lia
        end
    end.
    exact H.
Qed.

(** Whatever follows the first [i] bytes has no part in the result. *)
Lemma readVarInt_loop_window (i : nat) :
  forall num shift r,
    outcome (readVarInt_loop i num shift r)
    = outcome (readVarInt_loop i num shift (firstn i r)).
Proof.
  induction i as [|i IH]; intros num shift r; [reflexivity|].
  destruct r as [|b r']; [reflexivity|].
  cbn [firstn readVarInt_loop].
  destruct (N.land b 128 =? 0)%N; [reflexivity | apply IH].
Qed.

Lemma uint32_fits (v : Z) : (uint32 v < 2 ^ (7 * N.of_nat 5))%N.
Proof.
  pose proof (uint32_range v) as H. unfold is_uint32 in H.
  change (2 ^ (7 * N.of_nat 5))%N with 34359738368%N.
  change (2 ^ 32)%N with 4294967296%N in H. lia.
Qed.

Lemma readVarInt_encodeVarInt (v : Z) (rest : list byte) :
  readVarInt (encodeVarInt v ++ rest) = Ok (Z.of_N (uint32 v), rest).
Proof.
  unfold readVarInt, encodeVarInt.
  rewrite readVarInt_loop_encode by (apply uint32_fits || discriminate).
  rewrite Z.shiftl_0_r. reflexivity.
Qed.

End VarIntFacts.

(** C5.  For every int32 value [v]: reading back the encoding of [v] gives
    the unsigned 32-bit pattern of [v] and leaves what followed, and the
    int32 of that pattern is [v] again; a read never looks past the fifth
    byte and a successful one takes at most five; the encoding has between
    one and five bytes, and no byte string that reads as the same value is
    shorter. *)
Theorem varint_roundtrip (v : Z) :
  is_int32 v ->
  (forall rest, readVarInt (encodeVarInt v ++ rest) = Ok (Z.of_N (uint32 v), rest)) /\
  int32 (Z.of_N (uint32 v)) = v /\
  (forall bs, outcome (readVarInt bs) = outcome (readVarInt (firstn 5 bs))) /\
  (forall bs n rest, readVarInt bs = Ok (n, rest) ->
     exists pre, bs = pre ++ rest /\ (1 <= length pre <= 5)%nat) /\
  (1 <= length (encodeVarInt v) <= 5)%nat /\
  (forall bs rest, readVarInt bs = Ok (Z.of_N (uint32 v), rest) ->
     (length (encodeVarInt v) <= length bs - length rest)%nat).
Proof.
  intros Hv.
  pose proof (uint32_fits v) as H35.
  destruct (encode_length 5 _ H35 ltac:(discriminate)) as [Hlen Hmin].
  repeat split.
  - intros rest. apply readVarInt_encodeVarInt.
  - apply int32_uint32, Hv.
  - intros bs. apply readVarInt_loop_window.
  - intros bs n rest H. eapply readVarInt_loop_consumes, H.
  - apply Hlen.
  - apply Hlen.
  - intros bs rest H. unfold encodeVarInt.
    pose proof (readVarInt_loop_consumes _ _ _ _ _ _ H) as (pre & -> & Hpre).
    apply readVarInt_loop_value in H; [| cbn; lia].
    rewrite length_app in *.
    replace (length pre + length rest - length rest)%nat with (length pre) in * by lia.
    destruct Hmin as [->|Hmin]; [lia|].
    set (k := length (encodeVarInt_loop (uint32 v) [])) in *.
    destruct (Nat.le_gt_cases k (length pre)) as [|Hgt]; [assumption | exfalso].
    assert (Hpow : 2 ^ (7 * Z.of_nat (length pre)) <= 2 ^ (7 * Z.of_nat (k - 1)))
      by (apply Z.pow_le_mono_r; lia).
    assert (Hz : 2 ^ (7 * Z.of_nat (k - 1)) <= Z.of_N (uint32 v)).
    { replace (7 * Z.of_nat (k - 1)) with (Z.of_N (7 * N.of_nat (k - 1))) by lia.
      change 2 with (Z.of_N 2). rewrite <- N2Z.inj_pow. lia. }
    change (Z.of_N 0) with 0 in H. rewrite Z.add_0_l in H.
    generalize dependent (2 ^ (7 * Z.of_nat (length pre))).
    generalize dependent (2 ^ (7 * Z.of_nat (k - 1))).
    intros; lia.
Qed.

Lemma varint_roundtrip_witness :
  is_int32 (-1) /\ readVarInt (encodeVarInt (-1) ++ [7%N]) = Ok (4294967295, [7%N]).
Proof.
  assert (H : is_int32 (-1)) by (unfold is_int32; lia).
  split; [exact H|].
  exact (proj1 (varint_roundtrip (-1) H) [7%N]).
Defined.


(** ** The writer *)

Section WriterFacts.
Import Mcpr.

Lemma io_bind_Ok {A B} (m : IO A) (k : A -> IO B) w b w' :
  io_bind m k w = (Ok b, w') ->
  exists a w1, m w = (Ok a, w1) /\ k a w1 = (Ok b, w').
Proof.
  unfold io_bind. destruct (m w) as [[a|e] w1]; [eauto | discriminate].
Qed.

Lemma io_bind_Err {A B} (m : IO A) (k : A -> IO B) w e w' :
  io_bind m k w = (Err e, w') ->
  m w = (Err e, w') \/ exists a w1, m w = (Ok a, w1) /\ k a w1 = (Err e, w').
Proof.
  unfold io_bind. destruct (m w) as [[a|e1] w1]; [eauto | intros [= <- <-]; auto].
Qed.

(** A write on the recording handle that went through: the entry got the
    bytes, nothing else moved but the log of calls and the checksum. *)
Lemma recw_Write_Ok h p w w' :
  recw_Write h p w = (Ok tt, w') ->
  last_open (zw w) = true /\ S h = length (entries (zw w)) /\
  entries (zw w') = alter (append_data p) h (entries (zw w)) /\
  last_open (zw w') = true /\
  zip_closed (zw w') = zip_closed (zw w) /\
  finished (zw w') = finished (zw w) /\
  recw w' = recw w /\ meta w' = meta w /\ duration w' = duration w /\
  closed w' = closed w /\ file w' = file w.
Proof.
  unfold recw_Write, io_bind, io_zip, zip_Write, io_modify.
  destruct (last_open (zw w)) eqn:Hopen; cbn [negb orb]; [|discriminate].
  destruct (S h =? length (entries (zw w)))%nat eqn:Hlast; cbn [negb]; [|discriminate].
  apply Nat.eqb_eq in Hlast.
  destruct (next_fault (faults (zw w))) as [[|] fs]; [discriminate|].
  intros [= <-]. cbn. repeat split; auto.
Qed.

Lemma alter_append_twice (p q : list byte) h (es : list Entry) :
  alter (append_data q) h (alter (append_data p) h es)
  = alter (append_data (p ++ q)) h es.
Proof.
  rewrite list_alter_alter_eq. apply list_alter_ext; [|reflexivity].
  intros [n d] _. unfold append_data; cbn. rewrite app_assoc. reflexivity.
Qed.

Lemma WritePacket_Ok ts packetID payload w w' :
  WritePacket ts packetID payload w = (Ok tt, w') ->
  exists h,
    recw w = Some h /\ closed w = false /\
    last_open (zw w) = true /\ S h = length (entries (zw w)) /\
    entries (zw w') = alter (append_data (packet_bytes ts packetID payload)) h
                            (entries (zw w)) /\
    last_open (zw w') = true /\
    zip_closed (zw w') = zip_closed (zw w) /\
    finished (zw w') = finished (zw w) /\
    recw w' = recw w /\ meta w' = meta w /\
    duration w' = N.max (duration w) ts /\
    closed w' = false /\ file w' = file w.
Proof.
  unfold WritePacket.
  destruct (closed w) eqn:Hc; [discriminate|].
  destruct (recw w) as [h|] eqn:Hr; [|discriminate].
  intros H. exists h.
  apply io_bind_Ok in H as ([] & w1 & H1 & H).
  apply io_bind_Ok in H as ([] & w2 & H2 & H).
  apply io_bind_Ok in H as ([] & w3 & H3 & H).
  apply recw_Write_Ok in H1 as (Ho & Hh & E1 & O1 & Z1 & F1 & R1 & M1 & D1 & C1 & L1).
  apply recw_Write_Ok in H2 as (_ & _ & E2 & O2 & Z2 & F2 & R2 & M2 & D2 & C2 & L2).
  apply recw_Write_Ok in H3 as (_ & _ & E3 & O3 & Z3 & F3 & R3 & M3 & D3 & C3 & L3).
  unfold io_modify in H. injection H as <-.
  assert (Hd : duration (if (duration w3 <? ts)%N then set_duration ts w3 else w3)
               = N.max (duration w) ts).
  { destruct (N.ltb_spec (duration w3) ts); cbn; lia. }
  rewrite Hd.
  destruct (duration w3 <? ts)%N; cbn;
    (repeat split; try congruence);
    rewrite E3, E2, E1, !alter_append_twice; unfold packet_bytes;
    rewrite <- !app_assoc; reflexivity.
Qed.

Lemma be32_PutUint32 (v : N) : is_uint32 v -> PutUint32 v = Replay.be32 v.
Proof.
  unfold is_uint32, PutUint32, Replay.be32. intros Hv.
  change 255%N with (N.ones 8). rewrite !N.land_ones, !N.shiftr_div_pow2.
  change (2 ^ 8)%N with 256%N. reflexivity.
Qed.

Lemma of_be32_be32 (v : N) : is_uint32 v -> Replay.of_be32 (Replay.be32 v) = v.
Proof.
  unfold is_uint32, Replay.of_be32, Replay.be32. intros Hv. cbn [fold_left].
  change (2 ^ 32)%N with 4294967296%N in Hv.
  change (2 ^ 24)%N with (256 * 256 * 256)%N.
  change (2 ^ 16)%N with (256 * 256)%N.
  change (2 ^ 8)%N with 256%N.
  rewrite <- !N.Div0.div_div.
  pose proof (N.Div0.div_mod v 256) as H0.
  pose proof (N.Div0.div_mod (v / 256) 256) as H1.
  pose proof (N.Div0.div_mod (v / 256 / 256) 256) as H2.
  assert (H3 : (v / 256 / 256 / 256 < 256)%N).
  { do 3 (apply N.Div0.div_lt_upper_bound). lia. }
  rewrite (N.mod_small _ _ H3).
  generalize dependent (v / 256 / 256 / 256)%N; intros q3.
  generalize dependent ((v / 256 / 256) mod 256)%N; intros r2.
  generalize dependent (v / 256 / 256)%N; intros q2.
  generalize dependent ((v / 256) mod 256)%N; intros r1.
  generalize dependent (v / 256)%N; intros q1.
  generalize dependent (v mod 256)%N; intros r0.
  intros. lia.
Qed.

Lemma packet_bytes_layout (m : Replay.Message) :
  Replay.valid_message m ->
  packet_bytes (Replay.timestampMs m) (Replay.id m) (Replay.payload m)
  = Replay.layout m.
Proof.
  intros (Hts & _ & Hlen). unfold packet_bytes, Replay.layout.
  assert (Hu : uint32 (Z.of_nat (length (encodeVarInt (Replay.id m))
                                  + length (Replay.payload m)))
               = N.of_nat (length (encodeVarInt (Replay.id m))
                           + length (Replay.payload m))).
  { unfold uint32. rewrite Z.mod_small; [lia|].
    change (2 ^ 32)%N with 4294967296%N in Hlen.
    change (2 ^ 32) with 4294967296. lia. }
  rewrite Hu, !be32_PutUint32 by (assumption || exact Hlen).
  rewrite <- app_assoc. reflexivity.
Qed.

Lemma WritePacket_recording ts packetID payload w w' :
  WritePacket ts packetID payload w = (Ok tt, w') ->
  Replay.recording w' = Replay.recording w ++ packet_bytes ts packetID payload.
Proof.
  intros H. apply WritePacket_Ok in H
    as (h & Hr & _ & _ & Hh & HE & _ & _ & _ & Hr' & _).
  unfold Replay.recording. rewrite Hr', Hr, HE, list_lookup_alter_eq.
  destruct (lookup_lt_is_Some_2 (entries (zw w)) h ltac:(lia)) as [e He].
  rewrite He. reflexivity.
Qed.

Lemma write_all_Ok (ms : list Replay.Message) :
  forall w w',
    Forall Replay.valid_message ms ->
    Replay.write_all ms w = (Ok tt, w') ->
    Replay.recording w' = Replay.recording w ++ concat (map Replay.layout ms) /\
    duration w' = N.max (duration w) (Replay.max_timestamp ms) /\
    closed w' = closed w /\ meta w' = meta w.
Proof.
  induction ms as [|m ms IH]; intros w w' Hv H.
  - injection H as <-. cbn. rewrite app_nil_r, N.max_l by lia. auto.
  - cbn [Replay.write_all] in H. apply io_bind_Ok in H as ([] & w1 & H1 & H).
    inversion Hv as [|? ? Hm Hms]; subst.
    apply IH in H as (HR & HD & HC & HM); [|assumption].
    pose proof (WritePacket_recording _ _ _ _ _ H1) as HR1.
    apply WritePacket_Ok in H1
      as (h & _ & Hc & _ & _ & _ & _ & _ & _ & _ & Hm1 & Hd1 & Hc1 & _).
    rewrite packet_bytes_layout in HR1 by assumption.
    cbn [map concat Replay.max_timestamp fold_right].
    rewrite HR, HR1, HD, Hd1, <- app_assoc.
    repeat split; try congruence.
    fold (Replay.max_timestamp ms). lia.
Qed.

Lemma layout_length (m : Replay.Message) : (8 <= length (Replay.layout m))%nat.
Proof. unfold Replay.layout. rewrite !length_app. cbn. lia. Qed.

Lemma read_messages_layout (ms : list Replay.Message) :
  forall fuel,
    (length ms <= fuel)%nat ->
    Forall Replay.valid_message ms ->
    Replay.read_messages fuel (concat (map Replay.layout ms)) = Some ms.
Proof.
  induction ms as [|m ms IH]; intros fuel Hf Hv.
  - destruct fuel; reflexivity.
  - destruct fuel as [|fuel]; [cbn in Hf; lia|].
    inversion Hv as [|? ? Hm Hms]; subst.
    destruct Hm as (Hts & Hid & Hlen).
    cbn [map concat].
    set (rest := concat (map Replay.layout ms)).
    set (n := (length (encodeVarInt (Replay.id m)) + length (Replay.payload m))%nat) in *.
    assert (Hbs : Replay.layout m ++ rest
                  = Replay.be32 (Replay.timestampMs m)
                    ++ Replay.be32 (N.of_nat n)
                    ++ (encodeVarInt (Replay.id m) ++ Replay.payload m) ++ rest).
    { unfold Replay.layout. fold n. rewrite <- !app_assoc. reflexivity. }
    rewrite Hbs.
    remember (Replay.be32 (Replay.timestampMs m)) as b1 eqn:Hb1.
    remember (Replay.be32 (N.of_nat n)) as b2 eqn:Hb2.
    assert (L1 : length b1 = 4%nat) by (subst b1; reflexivity).
    assert (L2 : length b2 = 4%nat) by (subst b2; reflexivity).
    destruct b1 as [|x1 b1]; [discriminate|].
    cbn [app Replay.read_messages].
    change (x1 :: b1 ++ b2 ++ ?t) with ((x1 :: b1) ++ b2 ++ t).
    set (body := (encodeVarInt (Replay.id m) ++ Replay.payload m) ++ rest).
    assert (Hlen8 : (length ((x1 :: b1) ++ b2 ++ body) <? 8)%nat = false).
    { apply Nat.ltb_ge. rewrite !length_app. lia. }
    rewrite Hlen8.
    assert (F1 : firstn 4 ((x1 :: b1) ++ b2 ++ body) = x1 :: b1).
    { rewrite <- L1 at 1. apply take_app_length. }
    assert (S1 : skipn 4 ((x1 :: b1) ++ b2 ++ body) = b2 ++ body).
    { rewrite <- L1 at 1. apply drop_app_length. }
    assert (F2 : firstn 4 (b2 ++ body) = b2).
    { rewrite <- L2 at 1. apply take_app_length. }
    assert (S8 : skipn 8 ((x1 :: b1) ++ b2 ++ body) = body).
    { change 8%nat with (4 + 4)%nat. rewrite <- skipn_skipn, S1.
      rewrite <- L2 at 1. apply drop_app_length. }
    rewrite F1, S1, F2, S8, Hb1, Hb2, !of_be32_be32 by (assumption || exact Hlen).
    rewrite Nat2N.id.
    assert (Hn : length (encodeVarInt (Replay.id m) ++ Replay.payload m) = n)
      by (rewrite length_app; reflexivity).
    assert (Hb : (length body <? n)%nat = false).
    { apply Nat.ltb_ge. unfold body. rewrite length_app. lia. }
    rewrite Hb. unfold body.
    assert (F3 : firstn n ((encodeVarInt (Replay.id m) ++ Replay.payload m) ++ rest)
                 = encodeVarInt (Replay.id m) ++ Replay.payload m)
      by (rewrite <- Hn; apply take_app_length).
    assert (S3 : skipn n ((encodeVarInt (Replay.id m) ++ Replay.payload m) ++ rest)
                 = rest)
      by (rewrite <- Hn; apply drop_app_length).
    rewrite F3, S3.
    rewrite readVarInt_encodeVarInt, int32_uint32 by assumption.
    rewrite IH by (assumption || cbn in Hf; lia).
    destruct m; reflexivity.
Qed.

Context {J : JSON}.

(** Writing to the entry just created. *)
Lemma zip_Write_fresh es name d p zc fin fs log :
  zip_Write (length es) p (mkZip (es ++ [mkEntry name d]) true zc fin fs log)
  = let '(f, fs') := next_fault fs in
    if f then (Err ErrSink,
               mkZip (es ++ [mkEntry name d]) true zc fin fs'
                     (log ++ [CallWrite (length es) p]))
    else (Ok tt,
          mkZip (es ++ [mkEntry name (d ++ p)]) true zc fin fs'
                (log ++ [CallWrite (length es) p])).
Proof.
  unfold zip_Write. cbn [last_open entries negb orb faults calls zip_closed finished].
  rewrite length_app, Nat.add_1_r, Nat.eqb_refl. cbn [negb].
  destruct (next_fault fs) as [[|] fs']; [reflexivity|].
  rewrite alter_app_r_alt by lia. rewrite Nat.sub_diag. reflexivity.
Qed.

Ltac close_fields :=
  cbn [zw recw meta duration closed file crc32 set_meta set_zw set_closed
       entries last_open zip_closed finished faults calls].

Ltac close_done :=
  intros [= <- <-]; close_fields;
  repeat match goal with
  | |- _ /\ _ => split
  | |- _ = _ => reflexivity
  | |- exists more, _ = _ ++ _ :: more =>
      eexists; rewrite <- ?app_assoc; cbn [app]; reflexivity
  | |- (true = true /\ _) \/ _ => left
  | |- (false = true /\ _) \/ _ => right
  | |- exists e, _ = Err e /\ _ => eexists; split; [reflexivity | discriminate]
  | |- _ = false \/ _ =>
      first [left; reflexivity | right; rewrite ?length_app; cbn; lia]
  | |- _ ++ _ = _ ++ _ => rewrite <- ?app_assoc; reflexivity
  | |- Ok tt = Ok tt \/ _ => left; reflexivity
  | |- _ \/ Err ErrFileClose = Err ErrFileClose => right; reflexivity
  end.

Lemma Close_cases w r w' :
  closed w = false ->
  Close w = (r, w') ->
  recw w' = recw w /\ duration w' = duration w /\ file w' = file w /\
  crc32 w' = crc32 w /\
  meta w' = finalize_meta (duration w) (meta w) /\
  (exists more, calls (zw w') = calls (zw w) ++ CallCreate "metaData.json" :: more) /\
  ((closed w' = true /\ finished (zw w') = true /\
    entries (zw w') = entries (zw w) ++ final_entries w /\
    (r = Ok tt \/ r = Err ErrFileClose))
   \/
   (closed w' = false /\ (exists e, r = Err e /\ e <> ErrFileClose) /\
    (last_open (zw w') = false \/
     (length (entries (zw w)) < length (entries (zw w')))%nat))).
Proof.
  intros Hc. unfold Close. rewrite Hc.
  destruct w as [[es lo zc fin fs log] rw m d c f crc]. cbn in Hc. subst c.
  unfold io_bind, io_modify, io_wrap, io_zip, io_get, file_Close, zip_Create,
    zip_Close, final_entries.
  close_fields.
  destruct (next_fault fs) as [[|] fs1]; [close_done|]. close_fields.
  rewrite zip_Write_fresh.
  destruct (next_fault fs1) as [[|] fs2]; [close_done|]. close_fields.
  destruct (next_fault fs2) as [[|] fs3]; [close_done|]. close_fields.
  rewrite zip_Write_fresh.
  destruct (next_fault fs3) as [[|] fs4]; [close_done|]. close_fields.
  destruct (next_fault fs4) as [[|] fs5]; [close_done|]. close_fields.
  rewrite zip_Write_fresh.
  destruct (next_fault fs5) as [[|] fs6]; [close_done|]. close_fields.
  destruct zc; [close_done|].
  destruct (next_fault fs6) as [[|] fs7]; [close_done|]. close_fields.
  destruct f as [[p [|]]|]; close_done.
Qed.

Lemma NewWriter_well_formed out now m w :
  NewWriter out now m = Ok w -> well_formed w.
Proof.
  unfold NewWriter, zip_Create, zip_NewWriter. cbn.
  destruct (next_fault out) as [[|] fs]; [discriminate|].
  intros [= <-]. exists 0%nat. cbn. split; [reflexivity | lia].
Qed.

Lemma recw_Write_well_formed h p w r w' :
  recw_Write h p w = (r, w') -> well_formed w -> well_formed w'.
Proof.
  unfold recw_Write, io_bind, io_zip, zip_Write, io_modify, well_formed.
  destruct (negb (last_open (zw w)) || negb (S h =? length (entries (zw w)))%nat);
    [intros [= <- <-]; cbn; auto|].
  destruct (next_fault (faults (zw w))) as [[|] fs]; intros [= <- <-]; cbn; auto.
  rewrite length_alter. auto.
Qed.

Lemma WritePacket_well_formed ts packetID payload w r w' :
  WritePacket ts packetID payload w = (r, w') -> well_formed w -> well_formed w'.
Proof.
  unfold WritePacket.
  destruct (closed w); [intros [= <- <-]; auto|].
  destruct (recw w) as [h|]; [|intros [= <- <-]; auto].
  unfold io_bind at 1.
  destruct (recw_Write h _ w) as [[[]|e1] w1] eqn:H1;
    [| intros [= <- <-] ?; eapply recw_Write_well_formed; eauto].
  unfold io_bind at 1.
  destruct (recw_Write h _ w1) as [[[]|e2] w2] eqn:H2;
    [| intros [= <- <-] ?; eauto using recw_Write_well_formed].
  unfold io_bind at 1.
  destruct (recw_Write h _ w2) as [[[]|e3] w3] eqn:H3;
    [| intros [= <- <-] ?; eauto using recw_Write_well_formed].
  unfold io_modify. intros [= <- <-] Hwf.
  assert (well_formed w3) by eauto using recw_Write_well_formed.
  destruct (duration w3 <? ts)%N; assumption.
Qed.

Lemma CreateEntry_well_formed name w r w' :
  CreateEntry name w = (r, w') -> well_formed w -> well_formed w'.
Proof.
  unfold CreateEntry, io_zip, zip_Create, well_formed.
  destruct (closed w); [intros [= <- <-]; auto|].
  destruct (next_fault (faults (zw w))) as [[|] fs]; intros [= <- <-] (h & Hr & Hh);
    exists h; cbn; (split; [exact Hr|]); rewrite ?length_app; cbn; lia.
Qed.

Lemma Close_closed w : closed w = true -> Close w = (Ok tt, w).
Proof. intros H. unfold Close. rewrite H. reflexivity. Qed.

(** Once something was created after it, or the archive was closed, the
    recording entry takes no more bytes: the call is made and refused. *)
Lemma recw_Write_refused h p w :
  (last_open (zw w) = false \/ (S h < length (entries (zw w)))%nat) ->
  recw_Write h p w
  = (Err ErrZipWriteClosed,
     set_zw (mkZip (entries (zw w)) (last_open (zw w)) (zip_closed (zw w))
                   (finished (zw w)) (faults (zw w))
                   (calls (zw w) ++ [CallWrite h p])) w).
Proof.
  intros Hnw. unfold recw_Write, io_bind, io_zip, zip_Write.
  assert (Hchk : negb (last_open (zw w))
                 || negb (S h =? length (entries (zw w)))%nat = true).
  { destruct Hnw as [-> | Hlt]; [reflexivity|].
    apply orb_true_iff. right. apply negb_true_iff, Nat.eqb_neq. lia. }
  rewrite Hchk. reflexivity.
Qed.

Lemma WritePacket_refused ts packetID payload w h :
  closed w = false -> recw w = Some h ->
  (last_open (zw w) = false \/ (S h < length (entries (zw w)))%nat) ->
  exists w',
    WritePacket ts packetID payload w = (Err ErrZipWriteClosed, w') /\
    (exists p, calls (zw w') = calls (zw w) ++ [CallWrite h p]) /\
    entries (zw w') = entries (zw w) /\
    closed w' = false /\ duration w' = duration w /\ crc32 w' = crc32 w.
Proof.
  intros Hc Hr Hnw. unfold WritePacket. rewrite Hc, Hr.
  unfold io_bind at 1. rewrite recw_Write_refused by assumption.
  eexists. split; [reflexivity|].
  cbn. repeat split; eauto.
Qed.

End WriterFacts.

(** C9.  A second [Close] after a successful one returns success and leaves
    the writer, archive included, exactly as the first call left it. *)
Theorem Close_idempotent {J : Mcpr.JSON} (w w' : Mcpr.Writer) :
  Mcpr.Close w = (Ok tt, w') ->
  Mcpr.Close w' = (Ok tt, w').
Proof.
  intros H. destruct (Mcpr.closed w) eqn:Hc.
  - rewrite (Close_closed w Hc) in H. injection H as <-.
    apply Close_closed, Hc.
  - apply Close_cases in H as (_ & _ & _ & _ & _ & _ & [(Hc' & _)|(_ & (e & He & _) & _)]);
      [| discriminate | assumption].
    apply Close_closed, Hc'.
Qed.

(** C10.  A [Close] on an open writer sets the closed flag only when the
    archive was closed successfully.  When it returns an error of an entry
    creation, a write or the archive close, the flag stays unset; a
    [WritePacket] that follows does not answer "writer closed" but calls
    [Write] on the recording entry, which refuses it; and a second [Close]
    starts over with the creation of the metadata entry. *)
Theorem Close_error_leaves_open {J : Mcpr.JSON} (w : Mcpr.Writer) :
  Mcpr.closed w = false ->
  (forall r w', Mcpr.Close w = (r, w') -> Mcpr.closed w' = true ->
     Mcpr.finished (Mcpr.zw w') = true /\ (r = Ok tt \/ r = Err ErrFileClose)) /\
  (forall h e w',
     Mcpr.recw w = Some h -> (h < length (Mcpr.entries (Mcpr.zw w)))%nat ->
     Mcpr.Close w = (Err e, w') -> e <> ErrFileClose ->
     Mcpr.closed w' = false /\
     (forall ts packetID payload, exists w'',
        Mcpr.WritePacket ts packetID payload w' = (Err ErrZipWriteClosed, w'') /\
        (exists p, Mcpr.calls (Mcpr.zw w'')
                   = Mcpr.calls (Mcpr.zw w') ++ [Mcpr.CallWrite h p]) /\
        Mcpr.entries (Mcpr.zw w'') = Mcpr.entries (Mcpr.zw w')) /\
     (forall r2 w2, Mcpr.Close w' = (r2, w2) ->
        exists more, Mcpr.calls (Mcpr.zw w2)
                     = Mcpr.calls (Mcpr.zw w')
                       ++ Mcpr.CallCreate "metaData.json" :: more)).
Proof.
  intros Hc. split.
  - intros r w' H Hc'.
    apply Close_cases in H as (_ & _ & _ & _ & _ & _ & [(_ & Hf & _ & Hr)|(Hn & _)]);
      [auto | congruence | assumption].
  - intros h e w' Hr Hh H He.
    apply Close_cases in H
      as (Hr' & _ & _ & _ & _ & _ & [(_ & _ & _ & [Hok|Herr])|(Hc' & _ & Hnw)]);
      [discriminate | congruence | | assumption].
    split; [exact Hc'|]. split.
    + intros ts packetID payload.
      destruct (WritePacket_refused ts packetID payload w' h Hc')
        as (w'' & HW & Hcalls & Hent & _).
      * congruence.
      * destruct Hnw as [Hlo|Hlen]; [left; exact Hlo | right; lia].
      * exists w''. auto.
    + intros r2 w2 H2.
      apply Close_cases in H2 as (_ & _ & _ & _ & _ & Hcalls & _);
        [exact Hcalls | exact Hc'].
Qed.

Lemma Close_error_leaves_open_witness :
  Mcpr.closed Sample.faulty = false /\
  @Mcpr.Close Sample.json Sample.faulty
  = (Err (ErrCreateEntry "metaData.json"), Sample.failed) /\
  Mcpr.closed Sample.failed = false.
Proof.
  assert (Hc : @Mcpr.Close Sample.json Sample.faulty
               = (Err (ErrCreateEntry "metaData.json"), Sample.failed))
    by (vm_compute; reflexivity).
  split; [reflexivity|]. split; [exact Hc|].
  destruct (@Close_error_leaves_open Sample.json Sample.faulty eq_refl) as [_ H].
  refine (proj1 (H 0%nat (ErrCreateEntry "metaData.json") Sample.failed
                   eq_refl _ Hc _)).
  - vm_compute. lia.
  - discriminate.
Defined.

Example fresh_is_NewWriter :
  Mcpr.NewWriter [] 1000 Sample.meta0 = Ok Sample.fresh.
Proof. reflexivity. Qed.

Example faulty_is_NewWriter :
  Mcpr.NewWriter [false; true] 1000 Sample.meta0 = Ok Sample.faulty.
Proof. reflexivity. Qed.

Lemma Close_idempotent_witness :
  @Mcpr.Close Sample.json Sample.fresh = (Ok tt, Sample.finalized) /\
  @Mcpr.Close Sample.json Sample.finalized = (Ok tt, Sample.finalized).
Proof.
  assert (H : @Mcpr.Close Sample.json Sample.fresh = (Ok tt, Sample.finalized))
    by (vm_compute; reflexivity).
  split; [exact H|].
  exact (@Close_idempotent Sample.json Sample.fresh Sample.finalized H).
Defined.

Lemma NewWriter_fresh out now m w :
  Mcpr.NewWriter out now m = Ok w ->
  Replay.recording w = [] /\ Mcpr.duration w = 0%N /\ Mcpr.closed w = false.
Proof.
  unfold Mcpr.NewWriter, Mcpr.zip_Create, Mcpr.zip_NewWriter. cbn.
  destruct (Mcpr.next_fault out) as [[|] fs]; [discriminate|].
  intros [= <-]. auto.
Qed.

(** C4.  Messages written to a new writer, each fitting its fields: the
    recording entry is the concatenation, in the order written, of
    timestamp (4 bytes, big-endian), length of id and payload (4 bytes,
    big-endian), VarInt id and payload; read back by that layout it gives
    the same messages in the same order; and the duration that a
    successful [Close] puts in the metadata is the largest timestamp. *)
Theorem recording_roundtrip {J : Mcpr.JSON} out now m (ms : list Replay.Message)
  (w w' : Mcpr.Writer) :
  Mcpr.NewWriter out now m = Ok w ->
  Forall Replay.valid_message ms ->
  Replay.write_all ms w = (Ok tt, w') ->
  Replay.recording w' = concat (map Replay.layout ms) /\
  Replay.read_recording (Replay.recording w') = Some ms /\
  (forall w'', Mcpr.Close w' = (Ok tt, w'') ->
     Mcpr.Duration (Mcpr.meta w'') = Z.of_N (Replay.max_timestamp ms)).
Proof.
  intros Hnew Hv Hw.
  apply NewWriter_fresh in Hnew as (Hrec & Hdur & Hcl).
  apply write_all_Ok in Hw as (HR & HD & HC & _); [|assumption].
  rewrite Hrec in HR. cbn [app] in HR.
  split; [exact HR|]. split.
  - rewrite HR. unfold Replay.read_recording.
    apply read_messages_layout; [|assumption].
    clear. induction ms as [|x ms IH]; [cbn; lia|].
    cbn [map concat]. rewrite length_app. cbn [length].
    pose proof (layout_length x). lia.
  - intros w'' H.
    apply Close_cases in H as (_ & _ & _ & _ & -> & _); [|congruence].
    rewrite HD, Hdur. unfold Mcpr.finalize_meta.
    rewrite N.max_r by lia.
    repeat match goal with |- context [if ?c then _ else _] => destruct c end;
      reflexivity.
Qed.

Lemma two_messages_valid : Forall Replay.valid_message Sample.two_messages.
Proof.
  repeat constructor; unfold is_uint32, is_int32; cbn; lia.
Qed.

Lemma recording_roundtrip_witness :
  Replay.write_all Sample.two_messages Sample.fresh = (Ok tt, Sample.recorded) /\
  Replay.recording Sample.recorded
  = [0; 0; 0; 0; 0; 0; 0; 4; 0x26; 0x0A; 0xFF; 0xEE;
     0; 0; 0x05; 0xDC; 0; 0; 0; 5; 0x3A; 0xDE; 0xAD; 0xBE; 0xEF]%N /\
  Replay.read_recording (Replay.recording Sample.recorded)
  = Some Sample.two_messages /\
  @Mcpr.Close Sample.json Sample.recorded = (Ok tt, Sample.recorded_finalized) /\
  Mcpr.Duration (Mcpr.meta Sample.recorded_finalized) = 1500.
Proof.
  assert (Hw : Replay.write_all Sample.two_messages Sample.fresh
               = (Ok tt, Sample.recorded)) by (vm_compute; reflexivity).
  assert (Hc : @Mcpr.Close Sample.json Sample.recorded
               = (Ok tt, Sample.recorded_finalized)) by (vm_compute; reflexivity).
  destruct (@recording_roundtrip Sample.json [] 1000 Sample.meta0
              Sample.two_messages Sample.fresh Sample.recorded
              eq_refl two_messages_valid Hw)
    as (H1 & H2 & H3).
  split; [exact Hw|]. split; [exact H1|]. split; [exact H2|].
  split; [exact Hc|]. exact (H3 _ Hc).
Defined.

(** C3, as the code has it.  On the bare writer the two setters have no
    guard: after a successful [Close] they still change the metadata held
    in memory. *)
Lemma setters_after_Close_counterexample :
  @Mcpr.Close Sample.json Sample.fresh = (Ok tt, Sample.finalized) /\
  Mcpr.closed Sample.finalized = true /\
  Mcpr.SelfID (Mcpr.meta Sample.finalized) = 0 /\
  Mcpr.SelfID (Mcpr.meta (Mcpr.SetSelfID 7 Sample.finalized)) = 7 /\
  Mcpr.Players (Mcpr.meta Sample.finalized) = [] /\
  Mcpr.Players (Mcpr.meta (Mcpr.AddPlayer "069a79f4" Sample.finalized))
  = ["069a79f4"%string].
Proof. vm_compute. repeat split. Qed.

(** C3, amended.  The guard is in the facade: once [Recorder.Close] was
    called, [SetSelfID] and [AddPlayer] leave the recorder, and with it the
    metadata of its writer, as they are.  Called on a writer directly, they
    never touch the archive. *)
Theorem facade_setters_noop_after_Close {J : Mcpr.JSON} (r : Recorder.Recorder)
  (id : Z) (uuid : string) :
  let r' := snd (Recorder.Close r) in
  Recorder.SetSelfID id r' = r' /\
  Recorder.AddPlayer uuid r' = r' /\
  (forall w, Mcpr.zw (Mcpr.SetSelfID id w) = Mcpr.zw w /\
             Mcpr.zw (Mcpr.AddPlayer uuid w) = Mcpr.zw w).
Proof.
  assert (Hc : Recorder.closed (snd (Recorder.Close r)) = true).
  { unfold Recorder.Close. destruct (Recorder.closed r) eqn:E; [exact E|].
    destruct (Mcpr.Close (Recorder.w r)); reflexivity. }
  cbv zeta. unfold Recorder.SetSelfID, Recorder.AddPlayer. rewrite Hc.
  repeat split.
  unfold Mcpr.AddPlayer. destruct (existsb _ _); reflexivity.
Qed.

(** C1, as the code has it.  [Close] returns what its writes returned and
    reads nothing back: when the validator rejects the file at the path of
    a writer that [Close] finished without error, the documented
    close-then-validate returns that error while [Close] itself, and the
    facade's [Close] on top of it, have returned success. *)
Theorem Close_skips_self_check {J : Mcpr.JSON} (fs : gmap string Mcpr.DiskFile)
  (w w' : Mcpr.Writer) (f : Mcpr.OsFile) (e : error) (start : Z) :
  Mcpr.Close w = (Ok tt, w') ->
  Mcpr.file w' = Some f ->
  fst (Mcpr.ValidateFile fs (Mcpr.fpath f)) = Err e ->
  fst (Mcpr.Close_then_validate fs w) = Err e /\
  fst (Mcpr.Close w) = Ok tt /\
  fst (Recorder.Close (Recorder.mkRecorder w start false)) = Ok tt.
Proof.
  intros HC Hf HV. unfold Mcpr.Close_then_validate, Recorder.Close.
  cbn [Recorder.closed Recorder.w]. rewrite HC, Hf, HV. auto.
Qed.

Example created_is_Create :
  Mcpr.Create (Ok (Mcpr.mkFile "out.mcpr" false)) [] 1000 Sample.meta0
  = Ok Sample.created.
Proof. reflexivity. Qed.

Lemma Close_skips_self_check_witness :
  @Mcpr.Close Sample.json Sample.created = (Ok tt, Sample.created_finalized) /\
  fst (@Mcpr.ValidateFile Sample.json Sample.damaged_disk "out.mcpr") = Err ErrNotZip /\
  fst (@Mcpr.Close_then_validate Sample.json Sample.damaged_disk Sample.created)
  = Err ErrNotZip.
Proof.
  assert (HC : @Mcpr.Close Sample.json Sample.created
               = (Ok tt, Sample.created_finalized)) by (vm_compute; reflexivity).
  assert (HV : fst (@Mcpr.ValidateFile Sample.json Sample.damaged_disk "out.mcpr")
               = Err ErrNotZip) by (vm_compute; reflexivity).
  split; [exact HC|]. split; [exact HV|].
  exact (proj1 (@Close_skips_self_check Sample.json Sample.damaged_disk
                  Sample.created Sample.created_finalized
                  (Mcpr.mkFile "out.mcpr" false) ErrNotZip 0 HC eq_refl HV)).
Defined.

(** ** The frame parser *)

Section ParserFacts.
Import Mcpr Proxyrec.
Context {Z0 : Zlib}.
Variable cfg : Config.
Variable clock : nat -> Z.

(** What a round that goes on has done. *)
Lemma round_Continue (s s' : PState) :
  round cfg clock s = Continue s' ->
  exists frameLen r1 pid64 payload w',
    readVarInt (br s) = Ok (frameLen, r1) /\
    0 < frameLen <= maxFrame /\
    (Z.to_nat frameLen <= length r1)%nat /\
    readVarInt (decode cfg (compressionEnabled s) (firstn (Z.to_nat frameLen) r1))
    = Ok (pid64, payload) /\
    WritePacket (uint32 (clock (tick s))) (int32 pid64) payload (wr s) = (Ok tt, w') /\
    s' = mkPState (skipn (Z.to_nat frameLen) r1)
                  (detect cfg (compressionEnabled s) payload) w' (S (tick s)).
Proof.
  unfold round.
  destruct (readVarInt (br s)) as [[frameLen r1]|e] eqn:Hlen;
    [| destruct e; discriminate].
  destruct (Z.leb_spec frameLen 0); cbn [orb]; [discriminate|].
  destruct (Z.gtb_spec frameLen maxFrame); [discriminate|].
  destruct (Nat.ltb_spec (length r1) (Z.to_nat frameLen)); [discriminate|].
  destruct (readVarInt (decode cfg _ _)) as [[pid64 payload]|e] eqn:Hpid;
    [|discriminate].
  destruct (WritePacket _ _ _ _) as [[[]|e] w'] eqn:HW; [|discriminate].
  intros [= <-]. exists frameLen, r1, pid64, payload, w'.
  repeat split; auto; lia.
Qed.

Lemma round_shrinks (s s' : PState) :
  round cfg clock s = Continue s' -> (length (br s') < length (br s))%nat.
Proof.
  intros H. apply round_Continue in H
    as (n & r1 & pid64 & payload & w' & Hlen & Hn & Hr1 & _ & _ & ->).
  apply readVarInt_loop_consumes in Hlen as (pre & -> & Hpre).
  cbn [br]. rewrite length_skipn, length_app. lia.
Qed.

(** The loop always comes to its [return]. *)
Lemma rounds_total (fuel : nat) :
  forall s, (length (br s) < fuel)%nat ->
    exists r, rounds cfg clock fuel s = Some r /\
              forall s', r <> Continue s'.
Proof.
  induction fuel as [|fuel IH]; intros s Hf; [lia|].
  cbn [rounds]. destruct (round cfg clock s) as [s'| e w' | e w'] eqn:Hr.
  - apply IH. apply round_shrinks in Hr. lia.
  - eexists. split; [reflexivity | discriminate].
  - eexists. split; [reflexivity | discriminate].
Qed.

Lemma parseAndRecord_total (r : list byte) (w : Writer) :
  exists e w', parseAndRecord cfg clock r w = Some (e, w').
Proof.
  unfold parseAndRecord.
  destruct (rounds_total (S (length r)) (init cfg r w)) as ([s'|e w'|e w'] & -> & Hn).
  - cbn. lia.
  - exfalso. eapply Hn. reflexivity.
  - eauto.
  - eauto.
Qed.

Lemma rounds_advance (k : nat) :
  forall s s' fuel,
    advance cfg clock k s = Some s' ->
    rounds cfg clock (k + fuel) s = rounds cfg clock fuel s'.
Proof.
  induction k as [|k IH]; intros s s' fuel H.
  - injection H as <-. reflexivity.
  - cbn [advance] in H. cbn [rounds Nat.add].
    destruct (round cfg clock s); try discriminate. apply IH, H.
Qed.

(** A call of [WritePacket], whatever it returns, leaves what the recording
    entry held in place. *)
Lemma recw_Write_prefix h p w r w' :
  recw_Write h p w = (r, w') ->
  recw w' = recw w /\
  (recw w = Some h -> exists extra, Replay.recording w' = Replay.recording w ++ extra).
Proof.
  unfold recw_Write, io_bind, io_zip, zip_Write, io_modify.
  destruct (negb (last_open (zw w)) || negb (S h =? length (entries (zw w)))%nat) eqn:Hchk.
  - intros [= <- <-]. split; [reflexivity|]. intros _. exists []. rewrite app_nil_r.
    reflexivity.
  - destruct (next_fault (faults (zw w))) as [[|] fs].
    + intros [= <- <-]. split; [reflexivity|]. intros _. exists [].
      rewrite app_nil_r. reflexivity.
    + intros [= <- <-]. split; [reflexivity|]. intros Hr. exists p.
      apply orb_false_iff in Hchk as [_ Hlast].
      apply negb_false_iff, Nat.eqb_eq in Hlast.
      destruct (lookup_lt_is_Some_2 (entries (zw w)) h ltac:(lia)) as [x Hx].
      unfold Replay.recording. cbn. rewrite Hr, list_lookup_alter_eq, Hx.
      reflexivity.
Qed.

Lemma WritePacket_prefix ts packetID payload w r w' :
  WritePacket ts packetID payload w = (r, w') ->
  exists extra, Replay.recording w' = Replay.recording w ++ extra.
Proof.
  unfold WritePacket.
  destruct (closed w); [intros [= <- <-]; exists []; apply eq_sym, app_nil_r|].
  destruct (recw w) as [h|] eqn:Hr;
    [|intros [= <- <-]; exists []; apply eq_sym, app_nil_r].
  unfold io_bind at 1.
  destruct (recw_Write h _ w) as [[[]|e1] w1] eqn:H1;
    pose proof (recw_Write_prefix _ _ _ _ _ H1) as [R1 [x1 E1]]; try exact Hr;
    [| intros [= <- <-]; eauto].
  unfold io_bind at 1.
  destruct (recw_Write h _ w1) as [[[]|e2] w2] eqn:H2;
    pose proof (recw_Write_prefix _ _ _ _ _ H2) as [R2 [x2 E2]]; try congruence;
    [| intros [= <- <-]; exists (x1 ++ x2); rewrite E2, E1, app_assoc; reflexivity].
  unfold io_bind at 1.
  destruct (recw_Write h _ w2) as [[[]|e3] w3] eqn:H3;
    pose proof (recw_Write_prefix _ _ _ _ _ H3) as [R3 [x3 E3]]; try congruence;
    [| intros [= <- <-]; exists (x1 ++ x2 ++ x3);
       rewrite E3, E2, E1, <- !app_assoc; reflexivity].
  unfold io_modify. intros [= <- <-].
  exists (x1 ++ x2 ++ x3).
  assert (Hrec : forall d, Replay.recording (set_duration d w3) = Replay.recording w3)
    by reflexivity.
  destruct (duration w3 <? ts)%N; rewrite ?Hrec, E3, E2, E1, <- !app_assoc; reflexivity.
Qed.

Lemma advance_prefix (k : nat) :
  forall s s',
    advance cfg clock k s = Some s' ->
    exists extra, Replay.recording (wr s') = Replay.recording (wr s) ++ extra.
Proof.
  induction k as [|k IH]; intros s s' H.
  - injection H as <-. exists []. apply eq_sym, app_nil_r.
  - cbn [advance] in H.
    destruct (round cfg clock s) as [s1| |] eqn:Hr; try discriminate.
    apply IH in H as [x2 E2].
    apply round_Continue in Hr as (n & r1 & pid64 & payload & w' & _ & _ & _ & _ & HW & ->).
    apply WritePacket_prefix in HW as [x1 E1]. cbn [wr] in E2.
    exists (x1 ++ x2). rewrite E2, E1, app_assoc. reflexivity.
Qed.

Lemma advance_keeps_enabled (k : nat) :
  forall s s',
    advance cfg clock k s = Some s' ->
    compressionEnabled s = true -> compressionEnabled s' = true.
Proof.
  induction k as [|k IH]; intros s s' H He.
  - injection H as <-. exact He.
  - cbn [advance] in H.
    destruct (round cfg clock s) as [s1| |] eqn:Hr; try discriminate.
    apply (IH _ _ H).
    apply round_Continue in Hr as (n & r1 & pid64 & payload & w' & _ & _ & _ & _ & _ & ->).
    cbn [compressionEnabled]. unfold detect. rewrite He.
    rewrite andb_false_r. reflexivity.
Qed.

Lemma advance_length (k : nat) :
  forall s s',
    advance cfg clock k s = Some s' -> (k + length (br s') <= length (br s))%nat.
Proof.
  induction k as [|k IH]; intros s s' H.
  - injection H as <-. lia.
  - cbn [advance] in H.
    destruct (round cfg clock s) as [s1| |] eqn:Hr; try discriminate.
    apply IH in H. apply round_shrinks in Hr. lia.
Qed.

Lemma round_bad_length (s : PState) (n : Z) (r1 : list byte) :
  readVarInt (br s) = Ok (n, r1) ->
  n <= 0 \/ maxFrame < n ->
  round cfg clock s = Halt (ErrInvalidFrameLength n) (wr s).
Proof.
  intros Hlen Hbad. unfold round. rewrite Hlen.
  destruct (Z.leb_spec n 0); [reflexivity|].
  destruct (Z.gtb_spec n maxFrame); [reflexivity | lia].
Qed.

Lemma singleVarInt_spec (payload : list byte) :
  snd (singleVarInt payload) = true <-> exists v, readVarInt payload = Ok (v, []).
Proof.
  unfold singleVarInt.
  destruct (readVarInt payload) as [[v rest]|e].
  - destruct rest as [|b rest]; cbn.
    + split; [eauto | reflexivity].
    + split; [discriminate | intros [v' [=]]].
  - cbn. split; [discriminate | intros [v' [=]]].
Qed.

(** When inflating fails on a frame with a positive size field, the round
    records the frame as it came: the size field is read as the id, the
    compressed block is the payload. *)
Lemma round_inflate_failed (s : PState) (n size : Z) (r1 zr : list byte) :
  assumeNoCompress cfg = false ->
  compressionEnabled s = true ->
  readVarInt (br s) = Ok (n, r1) ->
  0 < n <= maxFrame ->
  (Z.to_nat n <= length r1)%nat ->
  readVarInt (firstn (Z.to_nat n) r1) = Ok (size, zr) ->
  0 < size ->
  zlib_inflate zr = None ->
  decode cfg true (firstn (Z.to_nat n) r1) = firstn (Z.to_nat n) r1 /\
  round cfg clock s
  = match WritePacket (uint32 (clock (tick s))) (int32 size) zr (wr s) with
    | (Ok _, w') => Continue (mkPState (skipn (Z.to_nat n) r1) true w' (S (tick s)))
    | (Err e, w') => Halt e w'
    end.
Proof.
  intros Ha He Hlen Hn Hr1 Hsize Hpos Hz.
  assert (Hd : decode cfg true (firstn (Z.to_nat n) r1) = firstn (Z.to_nat n) r1).
  { unfold decode. rewrite Ha, Hsize. cbn [negb andb].
    destruct (Z.gtb_spec size 0); [|lia]. rewrite Hz. reflexivity. }
  split; [exact Hd|].
  unfold round. rewrite Hlen.
  destruct (Z.leb_spec n 0); [lia|]. destruct (Z.gtb_spec n maxFrame); [lia|].
  cbn [orb]. destruct (Nat.ltb_spec (length r1) (Z.to_nat n)); [lia|].
  rewrite He, Hd, Hsize.
  unfold detect. rewrite andb_false_r. reflexivity.
Qed.

End ParserFacts.

(** C6.  After any number of recorded frames, a frame length that reads as
    zero or less, or as more than 8 MiB, ends [parseAndRecord] with the
    invalid-length error; the writer it leaves is the writer as it was
    before that frame, and its recording entry still begins with all that
    was written before. *)
Theorem bad_frame_length_rejected {Z0 : Proxyrec.Zlib} (cfg : Proxyrec.Config)
  (clock : nat -> Z) (r : list byte) (w : Mcpr.Writer) (k : nat)
  (s : Proxyrec.PState) (n : Z) (r1 : list byte) :
  Proxyrec.advance cfg clock k (Proxyrec.init cfg r w) = Some s ->
  readVarInt (Proxyrec.br s) = Ok (n, r1) ->
  n <= 0 \/ Proxyrec.maxFrame < n ->
  Proxyrec.round cfg clock s = Proxyrec.Halt (ErrInvalidFrameLength n) (Proxyrec.wr s) /\
  Proxyrec.parseAndRecord cfg clock r w
  = Some (ErrInvalidFrameLength n, Proxyrec.wr s) /\
  exists extra, Replay.recording (Proxyrec.wr s) = Replay.recording w ++ extra.
Proof.
  intros Hadv Hlen Hbad.
  pose proof (round_bad_length cfg clock s n r1 Hlen Hbad) as Hround.
  split; [exact Hround|]. split.
  - unfold Proxyrec.parseAndRecord.
    pose proof (advance_length cfg clock _ _ _ Hadv) as Hk. cbn [Proxyrec.br Proxyrec.init] in Hk.
    replace (S (length r)) with (k + S (length r - k))%nat by lia.
    rewrite (rounds_advance cfg clock k _ _ _ Hadv).
    cbn [Proxyrec.rounds]. rewrite Hround. reflexivity.
  - apply (advance_prefix cfg clock k _ _ Hadv).
Qed.

Lemma bad_frame_length_rejected_witness :
  @Proxyrec.parseAndRecord Sample.no_zlib Sample.not_guessing Sample.clock40
                           Sample.rejected_stream Sample.fresh
  = Some (ErrInvalidFrameLength 0, Proxyrec.wr Sample.after_not_guessing) /\
  Replay.recording (Proxyrec.wr Sample.after_not_guessing)
  = [0; 0; 0; 40; 0; 0; 0; 3; 0x03; 0x80; 0x02]%N.
Proof.
  assert (Hadv : @Proxyrec.advance Sample.no_zlib Sample.not_guessing Sample.clock40 1
                   (Proxyrec.init Sample.not_guessing Sample.rejected_stream Sample.fresh)
                 = Some Sample.after_not_guessing) by (vm_compute; reflexivity).
  assert (Hlen : readVarInt (Proxyrec.br Sample.after_not_guessing)
                 = Ok (0, [9; 9]%N)) by (vm_compute; reflexivity).
  destruct (@bad_frame_length_rejected Sample.no_zlib Sample.not_guessing
              Sample.clock40 Sample.rejected_stream Sample.fresh 1
              Sample.after_not_guessing 0 [9; 9]%N Hadv Hlen (or_introl (Z.le_refl 0)))
    as (_ & H & _).
  split; [exact H | vm_compute; reflexivity].
Defined.

(** C7.  The compression flag, once set, stays set through every later
    round, so it is set at most once.  A round that goes on on a frame whose
    payload is one VarInt and nothing else sets the flag when guessing is
    asked for, compression handling is not ruled out and the flag is not
    yet set; when the caller asked for no guessing, or ruled compression
    out, the round leaves the flag as it is. *)
Theorem compression_flag_monotone {Z0 : Proxyrec.Zlib} (cfg : Proxyrec.Config)
  (clock : nat -> Z) :
  (forall k s s',
     Proxyrec.advance cfg clock k s = Some s' ->
     Proxyrec.compressionEnabled s = true ->
     Proxyrec.compressionEnabled s' = true) /\
  (forall s s',
     Proxyrec.round cfg clock s = Proxyrec.Continue s' ->
     exists frameLen r1 pid64 payload,
       readVarInt (Proxyrec.br s) = Ok (frameLen, r1) /\
       readVarInt (Proxyrec.decode cfg (Proxyrec.compressionEnabled s)
                                   (firstn (Z.to_nat frameLen) r1))
       = Ok (pid64, payload) /\
       (Proxyrec.guessCompress cfg = true ->
        Proxyrec.assumeNoCompress cfg = false ->
        Proxyrec.compressionEnabled s = false ->
        (exists v, readVarInt payload = Ok (v, [])) ->
        Proxyrec.compressionEnabled s' = true) /\
       (Proxyrec.guessCompress cfg = false \/ Proxyrec.assumeNoCompress cfg = true ->
        Proxyrec.compressionEnabled s' = Proxyrec.compressionEnabled s)).
Proof.
  split.
  - intros k s s'. apply advance_keeps_enabled.
  - intros s s' H.
    apply round_Continue in H
      as (n & r1 & pid64 & payload & w' & Hlen & _ & _ & Hpid & _ & ->).
    exists n, r1, pid64, payload. split; [exact Hlen|]. split; [exact Hpid|].
    cbn [Proxyrec.compressionEnabled]. unfold Proxyrec.detect. split.
    + intros -> -> -> Hone. apply singleVarInt_spec in Hone. rewrite Hone. reflexivity.
    + intros [-> | ->]; [reflexivity | rewrite andb_false_r; reflexivity].
Qed.

Lemma compression_flag_monotone_witness :
  Proxyrec.compressionEnabled
    (Proxyrec.init Sample.guessing Sample.rejected_stream Sample.fresh) = false /\
  Proxyrec.compressionEnabled Sample.after_guessing = true /\
  Proxyrec.compressionEnabled Sample.after_not_guessing = false.
Proof.
  split; [reflexivity|]. split.
  - destruct (@compression_flag_monotone Sample.no_zlib Sample.guessing Sample.clock40)
      as [_ H].
    destruct (H (Proxyrec.init Sample.guessing Sample.rejected_stream Sample.fresh)
                Sample.after_guessing ltac:(vm_compute; reflexivity))
      as (n & r1 & pid64 & payload & Hlen & Hpid & Hflip & _).
    vm_compute in Hlen. injection Hlen as <- <-.
    vm_compute in Hpid. injection Hpid as <- <-.
    apply Hflip; try reflexivity.
    exists 256. vm_compute. reflexivity.
  - destruct (@compression_flag_monotone Sample.no_zlib Sample.not_guessing Sample.clock40)
      as [_ H].
    destruct (H (Proxyrec.init Sample.not_guessing Sample.rejected_stream Sample.fresh)
                Sample.after_not_guessing ltac:(vm_compute; reflexivity))
      as (n & r1 & pid64 & payload & _ & _ & _ & Hkeep).
    rewrite Hkeep; [reflexivity | left; reflexivity].
Defined.

(** C8.  With compression on, a frame whose size field is positive and
    whose block does not inflate is recorded as it came: the data stay the
    raw frame, its leading VarInt becomes the id and the rest the payload.
    The round ends the loop only with an error of the writer; when the
    writer takes the packet, the loop goes on with the bytes after the
    frame. *)
Theorem inflate_failure_falls_back {Z0 : Proxyrec.Zlib} (cfg : Proxyrec.Config)
  (clock : nat -> Z) (s : Proxyrec.PState) (n size : Z) (r1 zr : list byte) :
  Proxyrec.assumeNoCompress cfg = false ->
  Proxyrec.compressionEnabled s = true ->
  readVarInt (Proxyrec.br s) = Ok (n, r1) ->
  0 < n <= Proxyrec.maxFrame ->
  (Z.to_nat n <= length r1)%nat ->
  readVarInt (firstn (Z.to_nat n) r1) = Ok (size, zr) ->
  0 < size ->
  Proxyrec.zlib_inflate zr = None ->
  Proxyrec.decode cfg true (firstn (Z.to_nat n) r1) = firstn (Z.to_nat n) r1 /\
  Proxyrec.round cfg clock s
  = match Mcpr.WritePacket (uint32 (clock (Proxyrec.tick s))) (int32 size) zr
                           (Proxyrec.wr s) with
    | (Ok _, w') =>
        Proxyrec.Continue
          (Proxyrec.mkPState (skipn (Z.to_nat n) r1) true w' (S (Proxyrec.tick s)))
    | (Err e, w') => Proxyrec.Halt e w'
    end /\
  (forall w',
     Mcpr.WritePacket (uint32 (clock (Proxyrec.tick s))) (int32 size) zr (Proxyrec.wr s)
     = (Ok tt, w') ->
     Proxyrec.round cfg clock s
     = Proxyrec.Continue
         (Proxyrec.mkPState (skipn (Z.to_nat n) r1) true w' (S (Proxyrec.tick s))) /\
     Replay.recording w'
     = Replay.recording (Proxyrec.wr s)
       ++ Mcpr.packet_bytes (uint32 (clock (Proxyrec.tick s))) (int32 size) zr).
Proof.
  intros Ha He Hlen Hn Hr1 Hsize Hpos Hz.
  destruct (round_inflate_failed cfg clock s n size r1 zr Ha He Hlen Hn Hr1 Hsize Hpos Hz)
    as [Hd Hround].
  split; [exact Hd|]. split; [exact Hround|].
  intros w' HW. rewrite Hround, HW. split; [reflexivity|].
  apply WritePacket_recording, HW.
Qed.

Lemma inflate_failure_falls_back_witness :
  @Proxyrec.round Sample.no_zlib Sample.forced Sample.clock40
                  (Proxyrec.init Sample.forced Sample.broken_frame Sample.fresh)
  = Proxyrec.Continue Sample.after_broken /\
  Replay.recording (Proxyrec.wr Sample.after_broken)
  = [0; 0; 0; 40; 0; 0; 0; 3; 0x05; 0xAA; 0xBB]%N.
Proof.
  destruct (@inflate_failure_falls_back Sample.no_zlib Sample.forced Sample.clock40
              (Proxyrec.init Sample.forced Sample.broken_frame Sample.fresh)
              3 5 [0x05; 0xAA; 0xBB]%N [0xAA; 0xBB]%N
              eq_refl eq_refl ltac:(vm_compute; reflexivity)
              ltac:(split; [reflexivity | intro H; vm_compute in H; discriminate H])
              ltac:(vm_compute; lia) ltac:(vm_compute; reflexivity)
              ltac:(lia) eq_refl)
    as (_ & _ & H).
  destruct (H (Proxyrec.wr Sample.after_broken) ltac:(vm_compute; reflexivity))
    as [Hround Hrec].
  split; [exact Hround | vm_compute; reflexivity].
Defined.

(** ** Forwarding with a tee *)

Section TeeFacts.
Import Mcpr Proxyrec Tee.
Context {Z0 : Zlib}.
Variable cfg : Config.
Variable clock : nat -> Z.

(** Before any byte has reached it, the parser is waiting in its first
    read. *)
Lemma returned_nil (w : Writer) : returned cfg clock [] w = false.
Proof. reflexivity. Qed.

(** A write on a pipe whose reader has returned, the read side left open,
    does not return: the chunk just forwarded is the last one delivered. *)
Lemma forwardWithTee_stuck (chunk : list byte) (rest : list (list byte))
  (err : error) (dst : Dst) (pp : Pipe) :
  chunk <> [] ->
  dst_faults dst = [] ->
  read_closed pp = false ->
  reader_done pp (taken pp) = true ->
  forwardWithTee (chunk :: rest) err dst (Some pp)
  = Stuck (mkDst (delivered dst ++ chunk) []) rest.
Proof.
  intros Hne Hf Hopen Hdone. cbn [forwardWithTee].
  destruct chunk as [|b chunk]; [congruence|]. cbn [length Nat.ltb Nat.leb].
  unfold dst_Write. rewrite Hf. cbn [next_fault].
  cbn [tee_Write pipe_writer]. unfold pipe_Write. rewrite Hopen, Hdone.
  reflexivity.
Qed.

(** While the reader keeps reading, every chunk goes to the client and into
    the pipe. *)
Lemma forwardWithTee_taken (rd : list byte -> bool) (before : list (list byte)) :
  forall (tail : list (list byte)) (err : error) (dst : Dst) (tk : list byte),
    Forall (fun c => c <> []) before ->
    dst_faults dst = [] ->
    (forall pre suf, before = pre ++ suf -> suf <> [] -> rd (tk ++ concat pre) = false) ->
    forwardWithTee (before ++ tail) err dst (Some (mkPipe tk false rd))
    = forwardWithTee tail err (mkDst (delivered dst ++ concat before) [])
                     (Some (mkPipe (tk ++ concat before) false rd)).
Proof.
  induction before as [|c before IH]; intros tail err dst tk Hne Hf Hrd.
  - cbn [app concat]. rewrite !app_nil_r. destruct dst as [d fs]. cbn in Hf.
    subst fs. reflexivity.
  - inversion Hne as [|? ? Hc Hne']; subst.
    cbn [app forwardWithTee].
    destruct c as [|b c]; [congruence|]. cbn [length Nat.ltb Nat.leb].
    unfold dst_Write. rewrite Hf. cbn [next_fault].
    cbn [tee_Write pipe_writer]. unfold pipe_Write.
    cbn [read_closed reader_done taken].
    pose proof (Hrd [] ((b :: c) :: before) eq_refl ltac:(discriminate)) as H0.
    cbn [concat] in H0. rewrite app_nil_r in H0. rewrite H0.
    rewrite IH; [| assumption | reflexivity |].
    + cbn [delivered concat]. rewrite <- !app_assoc. reflexivity.
    + intros pre suf -> Hsuf.
      pose proof (Hrd ((b :: c) :: pre) suf eq_refl Hsuf) as H1.
      cbn [concat] in H1. rewrite <- app_assoc. exact H1.
Qed.

End TeeFacts.

(** C2, as the code has it.  The tee is an [io.Pipe], whose writes wait for
    the reader, and nothing closes its read side.  Once [parseAndRecord] has
    returned on the bytes mirrored so far, the next chunk from the server is
    still written to the client, but its write into the pipe never returns:
    [forwardWithTee] stays there and no later chunk is read or forwarded.
    Nothing is dropped, the forward path stops. *)
Theorem tee_blocks_forward_path {Z0 : Proxyrec.Zlib} (cfg : Proxyrec.Config)
  (clock : nat -> Z) (w : Mcpr.Writer) (before : list (list byte))
  (chunk : list byte) (rest : list (list byte)) (err : error) (conn : Tee.Dst) :
  Forall (fun c => c <> []) before -> chunk <> [] ->
  Tee.dst_faults conn = [] ->
  (forall pre suf, before = pre ++ suf -> suf <> [] ->
     Proxyrec.returned cfg clock (concat pre) w = false) ->
  Proxyrec.returned cfg clock (concat before) w = true ->
  Tee.server_to_client cfg clock w (before ++ chunk :: rest) err conn
  = Tee.Stuck (Tee.mkDst (Tee.delivered conn ++ concat before ++ chunk) []) rest.
Proof.
  intros Hbefore Hchunk Hf Hrun Hret.
  unfold Tee.server_to_client, Tee.io_Pipe.
  rewrite forwardWithTee_taken by assumption.
  rewrite forwardWithTee_stuck by (assumption || reflexivity).
  cbn [Tee.delivered]. rewrite <- app_assoc. reflexivity.
Qed.

Lemma tee_blocks_forward_path_witness :
  @Proxyrec.parseAndRecord Sample.no_zlib Sample.guessing Sample.clock40 [0%N] Sample.fresh
  = Some (ErrInvalidFrameLength 0, Sample.fresh) /\
  @Tee.server_to_client Sample.no_zlib Sample.guessing Sample.clock40 Sample.fresh
    [[0]; [1; 2; 3]; [4; 5]]%N ErrEOF (Tee.mkDst [] [])
  = Tee.Stuck (Tee.mkDst [0; 1; 2; 3]%N []) [[4; 5]%N].
Proof.
  split; [vm_compute; reflexivity|].
  refine (@tee_blocks_forward_path Sample.no_zlib Sample.guessing Sample.clock40
            Sample.fresh [[0%N]] [1; 2; 3]%N [[4; 5]%N] ErrEOF (Tee.mkDst [] [])
            _ _ eq_refl _ _).
  - repeat constructor; discriminate.
  - discriminate.
  - intros [|c [|c' pre]] suf H Hsuf.
    + reflexivity.
    + injection H as _ <-. congruence.
    + destruct pre; discriminate.
  - vm_compute. reflexivity.
Defined.

(** * Further properties of the code *)

(** ** VarInt codec, continued *)

Section VarIntMore.

(** X1.  Whatever [readVarInt] returns lies between 0 and 2^35 - 1: never
    negative, and possibly beyond 32 bits, since the upper bits of a fifth
    byte are kept. *)
Theorem readVarInt_range (bs rest : list byte) (v : Z) :
  readVarInt bs = Ok (v, rest) -> 0 <= v < 2 ^ 35.
Proof.
  intros H. unfold readVarInt in H.
  pose proof (readVarInt_loop_consumes _ _ _ _ _ _ H) as (pre & -> & Hpre).
  apply readVarInt_loop_value in H; [| cbn; lia].
  rewrite length_app in H.
  replace (length pre + length rest - length rest)%nat with (length pre) in H by lia.
  change (Z.of_N 0) with 0 in H. rewrite Z.add_0_l in H.
  split; [lia|]. apply Z.lt_le_trans with (2 ^ (7 * Z.of_nat (length pre))); [lia|].
  apply Z.pow_le_mono_r; lia.
Qed.

Lemma readVarInt_range_witness :
  readVarInt [0xFF; 0xFF; 0xFF; 0xFF; 0x7F]%N = Ok (34359738367, []) /\
  0 <= 34359738367 < 2 ^ 35.
Proof.
  assert (H : readVarInt [0xFF; 0xFF; 0xFF; 0xFF; 0x7F]%N = Ok (34359738367, []))
    by (vm_compute; reflexivity).
  split; [exact H|]. exact (readVarInt_range _ _ _ H).
Defined.

Lemma readVarInt_loop_errors (i : nat) :
  forall num shift bs,
    (readVarInt_loop i num shift bs = Err ErrVarIntTooLong <->
     (i <= length bs)%nat /\ Forall Wire.continues (firstn i bs)) /\
    (readVarInt_loop i num shift bs = Err ErrEOF <->
     (length bs < i)%nat /\ Forall Wire.continues bs) /\
    (forall e, readVarInt_loop i num shift bs = Err e ->
               e = ErrVarIntTooLong \/ e = ErrEOF).
Proof.
  induction i as [|i IH]; intros num shift bs.
  - cbn [readVarInt_loop firstn]. split; [|split].
    + split; [intros _; split; [lia | constructor] | reflexivity].
    + split; [discriminate | intros [H _]; lia].
    + intros e [= <-]. auto.
  - destruct bs as [|b bs]; cbn [readVarInt_loop firstn length].
    + split; [|split].
      * split; [discriminate | intros [H _]; lia].
      * split; [intros _; split; [lia | constructor] | reflexivity].
      * intros e [= <-]. auto.
    + destruct (N.eqb_spec (N.land b 128) 0) as [Hb|Hb].
      * split; [|split].
        -- split; [discriminate|].
           intros [_ HF]. inversion HF; subst. unfold Wire.continues in *. congruence.
        -- split; [discriminate|].
           intros [_ HF]. inversion HF; subst. unfold Wire.continues in *. congruence.
        -- discriminate.
      * destruct (IH (Z.lor num (Z.shiftl (Z.of_N (N.land b 127)) (Z.of_N shift)))
                     (shift + 7)%N bs) as (H1 & H2 & H3).
        split; [|split].
        -- split.
           ++ intros H. apply H1 in H. split; [lia|].
              constructor; [exact Hb | apply H].
           ++ intros [Hl HF]. inversion HF; subst. apply H1. split; [lia | assumption].
        -- split.
           ++ intros H. apply H2 in H. split; [lia|].
              constructor; [exact Hb | apply H].
           ++ intros [Hl HF]. inversion HF; subst. apply H2. split; [lia | assumption].
        -- exact H3.
Qed.

(** X2.  [readVarInt] fails in two ways only: with "varint too long" exactly
    when the first five bytes all carry the continuation bit, and with
    [io.EOF] exactly when fewer than five bytes are there and all of them
    carry it. *)
Theorem readVarInt_errors (bs : list byte) :
  (readVarInt bs = Err ErrVarIntTooLong <->
   (5 <= length bs)%nat /\ Forall Wire.continues (firstn 5 bs)) /\
  (readVarInt bs = Err ErrEOF <->
   (length bs < 5)%nat /\ Forall Wire.continues bs) /\
  (forall e, readVarInt bs = Err e -> e = ErrVarIntTooLong \/ e = ErrEOF).
Proof. apply readVarInt_loop_errors. Qed.

Lemma readVarInt_errors_witness :
  readVarInt [0x80; 0x80; 0x80; 0x80; 0x80; 0x00]%N = Err ErrVarIntTooLong /\
  readVarInt [0x80; 0x80]%N = Err ErrEOF.
Proof.
  split.
  - apply (proj1 (readVarInt_errors [0x80; 0x80; 0x80; 0x80; 0x80; 0x00]%N)).
    split; [cbn; lia|]. repeat constructor; discriminate.
  - apply (proj1 (proj2 (readVarInt_errors [0x80; 0x80]%N))).
    split; [cbn; lia|]. repeat constructor; discriminate.
Defined.

(** X3.  [singleVarInt] accepts every output of [encodeVarInt], with the
    value it encodes; it accepts nothing shorter than one byte or longer
    than five; and it refuses an encoding followed by anything. *)
Theorem singleVarInt_exact (v : Z) :
  singleVarInt (encodeVarInt v) = (Z.of_N (uint32 v), true) /\
  (forall b rest, singleVarInt (encodeVarInt v ++ b :: rest) = (0, false)) /\
  (forall p, snd (singleVarInt p) = true -> (1 <= length p <= 5)%nat).
Proof.
  repeat split.
  - unfold singleVarInt.
    rewrite <- (app_nil_r (encodeVarInt v)), readVarInt_encodeVarInt. reflexivity.
  - intros b rest. unfold singleVarInt. rewrite readVarInt_encodeVarInt. reflexivity.
  - apply singleVarInt_spec in H as [x H].
    apply readVarInt_loop_consumes in H as (pre & -> & Hpre).
    rewrite app_nil_r. lia.
  - apply singleVarInt_spec in H as [x H].
    apply readVarInt_loop_consumes in H as (pre & -> & Hpre).
    rewrite app_nil_r. lia.
Qed.

Lemma singleVarInt_exact_witness :
  snd (singleVarInt [0x80; 0x02]%N) = true /\ (1 <= 2 <= 5)%nat.
Proof.
  assert (H : snd (singleVarInt [0x80; 0x02]%N) = true) by reflexivity.
  split; [exact H|].
  exact (proj2 (proj2 (singleVarInt_exact 0)) [0x80; 0x02]%N H).
Defined.

Lemma writeVarInt_loop_unfold (uv : N) (buf : list byte) (i : nat) :
  Wire.writeVarInt_loop uv buf i =
  if (i <? length buf)%nat then
    if (N.shiftr uv 7 =? 0)%N then Some (<[i := N.land uv 0x7F%N]> buf, S i)
    else Wire.writeVarInt_loop (N.shiftr uv 7)
                               (<[i := N.lor (N.land uv 0x7F%N) 0x80%N]> buf) (S i)
  else None.
Proof.
  rewrite Wire.writeVarInt_loop_equation_1.
  destruct (N.eq_dec (N.shiftr uv 7) 0%N) as [e|n]; cbn.
  - rewrite e. destruct (i <? length buf)%nat; reflexivity.
  - apply N.eqb_neq in n. rewrite n. destruct (i <? length buf)%nat; reflexivity.
Qed.

Lemma writeVarInt_loop_fills (uv : N) :
  forall (buf : list byte) (i : nat),
    (i + length (encodeVarInt_loop uv []) <= length buf)%nat ->
    exists buf',
      Wire.writeVarInt_loop uv buf i
      = Some (buf', (i + length (encodeVarInt_loop uv []))%nat) /\
      firstn (i + length (encodeVarInt_loop uv [])) buf'
      = firstn i buf ++ encodeVarInt_loop uv [].
Proof.
  induction uv as [uv IH] using (well_founded_induction N.lt_wf_0).
  intros buf i. rewrite writeVarInt_loop_unfold, (encodeVarInt_loop_unfold uv []).
  destruct (N.shiftr uv 7 =? 0)%N eqn:E.
  - cbn [app length]. intros Hlen.
    destruct (Nat.ltb_spec i (length buf)); [|lia].
    eexists. split; [rewrite Nat.add_1_r; reflexivity|].
    rewrite Nat.add_1_r.
    rewrite (take_S_r _ _ (N.land uv 127)) by (apply list_lookup_insert_eq; lia).
    rewrite take_insert_ge by lia. reflexivity.
  - apply N.eqb_neq in E.
    assert (Hlt : (N.shiftr uv 7 < uv)%N).
    { rewrite N.shiftr_div_pow2 in *. apply N.div_lt; [|lia].
      destruct uv; [exfalso; apply E; reflexivity | lia]. }
    rewrite encodeVarInt_loop_acc. cbn [app length]. intros Hlen.
    destruct (Nat.ltb_spec i (length buf)); [|lia].
    destruct (IH _ Hlt (<[i := N.lor (N.land uv 127) 128]> buf) (S i))
      as (buf' & Hrun & Htake).
    { rewrite length_insert. lia. }
    exists buf'. rewrite Hrun.
    replace (i + S (length (encodeVarInt_loop (N.shiftr uv 7) [])))%nat
      with (S i + length (encodeVarInt_loop (N.shiftr uv 7) []))%nat by lia.
    split; [reflexivity|]. rewrite Htake.
    rewrite (take_S_r _ _ (N.lor (N.land uv 127) 128))
      by (apply list_lookup_insert_eq; lia).
    rewrite take_insert_ge by lia. rewrite <- app_assoc. reflexivity.
Qed.

(** X4.  [writeVarInt] never runs past its buffer of five bytes, and the
    bytes it hands to the writer are those [encodeVarInt] returns for the
    same value, also when the [int] it is given does not fit in 32 bits. *)
Theorem writeVarInt_encodeVarInt (v : Z) :
  Wire.writeVarInt v = Some (encodeVarInt v) /\
  encodeVarInt v = encodeVarInt (int32 v).
Proof.
  split.
  - unfold Wire.writeVarInt, encodeVarInt.
    destruct (encode_length 5 _ (uint32_fits v) ltac:(discriminate)) as [Hlen _].
    destruct (writeVarInt_loop_fills (uint32 v) (replicate 5 0%N) 0) as (buf' & -> & Ht).
    { rewrite length_replicate. lia. }
    cbn [Nat.add firstn app] in Ht. cbn [Nat.add]. rewrite Ht. reflexivity.
  - unfold encodeVarInt. f_equal. unfold uint32, int32. cbv zeta. f_equal.
    destruct (v mod 2 ^ 32 <? 2 ^ 31).
    + symmetry. apply Z.mod_mod. lia.
    + rewrite <- (Z.mod_add (v mod 2 ^ 32 - 2 ^ 32) 1) by lia.
      replace (v mod 2 ^ 32 - 2 ^ 32 + 1 * 2 ^ 32) with (v mod 2 ^ 32) by lia.
      symmetry. apply Z.mod_mod. lia.
Qed.

End VarIntMore.

(** ** The writer, continued *)

Section WriterMore.
Import Mcpr Lifecycle.

Lemma existsb_eqb_In (u : string) (ps : list string) :
  existsb (String.eqb u) ps = true <-> In u ps.
Proof.
  rewrite existsb_exists. split.
  - intros (x & Hin & Heq). apply String.eqb_eq in Heq. congruence.
  - intros Hin. exists u. split; [exact Hin | apply String.eqb_refl].
Qed.

(** X5.  [AddPlayer] keeps the players a list without repetition in order
    of first appearance: the UUID is in the list afterwards, the players
    already there keep their places, a UUID already there changes nothing,
    a second call with the same UUID changes nothing, and a list without
    duplicates stays without duplicates. *)
Theorem AddPlayer_first_seen (uuid : string) (w : Writer) :
  In uuid (Players (meta (AddPlayer uuid w))) /\
  (exists tail, Players (meta (AddPlayer uuid w)) = Players (meta w) ++ tail) /\
  (In uuid (Players (meta w)) -> AddPlayer uuid w = w) /\
  AddPlayer uuid (AddPlayer uuid w) = AddPlayer uuid w /\
  (NoDup (Players (meta w)) -> NoDup (Players (meta (AddPlayer uuid w)))).
Proof.
  unfold AddPlayer.
  destruct (existsb (String.eqb uuid) (Players (meta w))) eqn:E.
  - pose proof (proj1 (existsb_eqb_In _ _) E) as Hin.
    rewrite E. repeat split; auto.
    exists []. rewrite app_nil_r. reflexivity.
  - assert (Hnot : ~ In uuid (Players (meta w))).
    { intros Hin. apply existsb_eqb_In in Hin. congruence. }
    cbn [meta set_meta Players set_Players].
    assert (E' : existsb (String.eqb uuid) (Players (meta w) ++ [uuid]) = true).
    { apply existsb_eqb_In, in_or_app. right. left. reflexivity. }
    rewrite E'. repeat split.
    + apply in_or_app. right. left. reflexivity.
    + eauto.
    + intros Hin. contradiction.
    + intros Hnd. apply NoDup_app. repeat split; [exact Hnd | | apply NoDup_singleton].
      intros x Hx Hx'. apply list_elem_of_In in Hx.
      apply list_elem_of_singleton in Hx'. subst. contradiction.
Qed.

Lemma AddPlayer_first_seen_witness :
  NoDup (Players (meta (AddPlayer "b" (AddPlayer "a" Sample.fresh)))) /\
  Players (meta (AddPlayer "a" (AddPlayer "b" (AddPlayer "a" Sample.fresh))))
  = ["a"; "b"]%string.
Proof.
  split; [|reflexivity].
  apply AddPlayer_first_seen. apply AddPlayer_first_seen. apply NoDup_nil_2.
Defined.

(** X6.  After a [Close] that returned success the writer refuses every
    further packet and entry with "writer closed" and stays as it is. *)
Theorem closed_writer_refuses {J : JSON} (w w' : Writer) :
  Close w = (Ok tt, w') ->
  (forall ts packetID payload,
     WritePacket ts packetID payload w' = (Err ErrWriterClosed, w')) /\
  (forall name, CreateEntry name w' = (Err ErrWriterClosed, w')).
Proof.
  intros H.
  assert (Hc : closed w' = true).
  { destruct (closed w) eqn:Hc.
    - rewrite (Close_closed w Hc) in H. injection H as <-. exact Hc.
    - apply Close_cases in H
        as (_ & _ & _ & _ & _ & _ & [(Hc' & _)|(_ & (e & He & _) & _)]);
        [exact Hc' | discriminate | assumption]. }
  split.
  - intros ts packetID payload. unfold WritePacket. rewrite Hc. reflexivity.
  - intros name. unfold CreateEntry. rewrite Hc. reflexivity.
Qed.

Lemma closed_writer_refuses_witness :
  WritePacket 7%N 1 [1%N] Sample.finalized = (Err ErrWriterClosed, Sample.finalized).
Proof.
  assert (H : @Close Sample.json Sample.fresh = (Ok tt, Sample.finalized))
    by (vm_compute; reflexivity).
  exact (proj1 (@closed_writer_refuses Sample.json _ _ H) 7%N 1 [1%N]).
Defined.

Lemma lxor_mask_twice (x m : N) : N.lxor (N.lxor x m) m = x.
Proof. rewrite N.lxor_assoc, N.lxor_nilpotent, N.lxor_0_r. reflexivity. Qed.

Lemma crc32_Update_app (c : N) (p q : list byte) :
  crc32_Update (crc32_Update c p) q = crc32_Update c (p ++ q).
Proof.
  unfold crc32_Update. rewrite lxor_mask_twice, fold_left_app. reflexivity.
Qed.

Lemma crc32_Update_nil (c : N) : crc32_Update c [] = c.
Proof. unfold crc32_Update. cbn. apply lxor_mask_twice. Qed.

Lemma names_alter_append p h (es : list Entry) :
  Name <$> alter (append_data p) h es = Name <$> es.
Proof.
  revert h. induction es as [|e es IH]; intros [|h]; cbn; f_equal; auto.
Qed.

(** Everything one write through the MultiWriter can do. *)
Lemma recw_Write_effect h p w r w' :
  recw_Write h p w = (r, w') ->
  recw w = Some h ->
  recw w' = recw w /\ meta w' = meta w /\ duration w' = duration w /\
  closed w' = closed w /\ file w' = file w /\
  zip_closed (zw w') = zip_closed (zw w) /\ finished (zw w') = finished (zw w) /\
  last_open (zw w') = last_open (zw w) /\
  Name <$> entries (zw w') = Name <$> entries (zw w) /\
  ((r = Ok tt /\ Replay.recording w' = Replay.recording w ++ p /\
    crc32 w' = crc32_Update (crc32 w) p)
   \/
   ((r = Err ErrSink \/ r = Err ErrZipWriteClosed) /\
    Replay.recording w' = Replay.recording w /\ crc32 w' = crc32 w)).
Proof.
  unfold recw_Write, io_bind, io_zip, zip_Write, io_modify. intros H Hr.
  destruct (negb (last_open (zw w)) || negb (S h =? length (entries (zw w)))%nat) eqn:Hchk.
  - injection H as <- <-. cbn. repeat split; auto.
  - destruct (next_fault (faults (zw w))) as [[|] fs].
    + injection H as <- <-. cbn. repeat split; auto.
    + injection H as <- <-. cbn. rewrite names_alter_append. repeat split; auto.
      left. repeat split.
      apply orb_false_iff in Hchk as [_ Hlast].
      apply negb_false_iff, Nat.eqb_eq in Hlast.
      destruct (lookup_lt_is_Some_2 (entries (zw w)) h ltac:(lia)) as [x Hx].
      unfold Replay.recording. cbn. rewrite Hr, list_lookup_alter_eq, Hx. reflexivity.
Qed.

Lemma WritePacket_effect_none ts packetID payload (w : Writer) :
  recw w = recw w /\ meta w = meta w /\ closed w = closed w /\
  file w = file w /\
  zip_closed (zw w) = zip_closed (zw w) /\ finished (zw w) = finished (zw w) /\
  last_open (zw w) = last_open (zw w) /\
  Name <$> entries (zw w) = Name <$> entries (zw w) /\
  exists extra,
    Replay.recording w = Replay.recording w ++ extra /\
    extra `prefix_of` packet_bytes ts packetID payload /\
    crc32 w = crc32_Update (crc32 w) extra /\
    duration w = duration w /\
    (ErrWriterClosed = ErrWriterClosed \/ ErrWriterClosed = ErrZipWriteClosed
     \/ ErrWriterClosed = ErrSink).
Proof.
  repeat (split; [reflexivity|]). exists [].
  rewrite app_nil_r, crc32_Update_nil. repeat split; auto using prefix_nil.
Qed.

(** Everything one call of [WritePacket] can do, whatever it returns. *)
Lemma WritePacket_effect ts packetID payload w r w' :
  WritePacket ts packetID payload w = (r, w') ->
  recw w' = recw w /\ meta w' = meta w /\ closed w' = closed w /\
  file w' = file w /\
  zip_closed (zw w') = zip_closed (zw w) /\ finished (zw w') = finished (zw w) /\
  last_open (zw w') = last_open (zw w) /\
  Name <$> entries (zw w') = Name <$> entries (zw w) /\
  exists extra,
    Replay.recording w' = Replay.recording w ++ extra /\
    extra `prefix_of` packet_bytes ts packetID payload /\
    crc32 w' = crc32_Update (crc32 w) extra /\
    match r with
    | Ok _ => extra = packet_bytes ts packetID payload /\
              duration w' = N.max (duration w) ts
    | Err e => duration w' = duration w /\
               (e = ErrWriterClosed \/ e = ErrZipWriteClosed \/ e = ErrSink)
    end.
Proof.
  unfold WritePacket.
  destruct (closed w) eqn:Hc;
    [intros [= <- <-]; rewrite <- Hc; apply WritePacket_effect_none|].
  destruct (recw w) as [h|] eqn:Hr;
    [|intros [= <- <-]; rewrite <- Hc, <- Hr; apply WritePacket_effect_none].
  set (hdr := PutUint32 ts ++ _). set (varid := encodeVarInt packetID).
  assert (Hpb : packet_bytes ts packetID payload = hdr ++ varid ++ payload)
    by (unfold packet_bytes; reflexivity).
  rewrite Hpb. clearbody hdr varid.
  unfold io_bind at 1.
  destruct (recw_Write h hdr w) as [r1 w1] eqn:H1.
  apply recw_Write_effect in H1
    as (R1 & M1 & D1 & C1 & F1 & Z1 & G1 & L1 & N1 & [(-> & E1 & K1)|(Hr1 & E1 & K1)]);
    [| | exact Hr].
  2:{ destruct Hr1 as [-> | ->]; cbn beta iota; intros [= <- <-];
      (repeat (split; [congruence|])); exists [];
      rewrite app_nil_r, crc32_Update_nil; repeat split; auto using prefix_nil. }
  unfold io_bind at 1.
  destruct (recw_Write h varid w1) as [r2 w2] eqn:H2.
  apply recw_Write_effect in H2
    as (R2 & M2 & D2 & C2 & F2 & Z2 & G2 & L2 & N2 & [(-> & E2 & K2)|(Hr2 & E2 & K2)]);
    [| | congruence].
  2:{ destruct Hr2 as [-> | ->]; cbn beta iota; intros [= <- <-];
      (repeat (split; [congruence|])); exists hdr;
      (split; [congruence|]); (split; [apply prefix_app_r; reflexivity|]);
      (split; [congruence|]); (split; [congruence | auto]). }
  unfold io_bind at 1.
  destruct (recw_Write h payload w2) as [r3 w3] eqn:H3.
  apply recw_Write_effect in H3
    as (R3 & M3 & D3 & C3 & F3 & Z3 & G3 & L3 & N3 & [(-> & E3 & K3)|(Hr3 & E3 & K3)]);
    [| | congruence].
  - unfold io_modify. intros [= <- <-].
    assert (Hsame : forall d, Replay.recording (set_duration d w3) = Replay.recording w3)
      by reflexivity.
    assert (Hd : duration (if (duration w3 <? ts)%N then set_duration ts w3 else w3)
                 = N.max (duration w) ts).
    { destruct (N.ltb_spec (duration w3) ts); cbn; lia. }
    rewrite Hd.
    destruct (duration w3 <? ts)%N; cbn [set_duration recw meta closed file zw crc32];
      rewrite ?Hsame;
      (repeat (split; [congruence|])); exists (hdr ++ varid ++ payload);
      (split; [rewrite E3, E2, E1, <- !app_assoc; reflexivity|]);
      (split; [reflexivity|]);
      (split; [rewrite K3, K2, K1, !crc32_Update_app; reflexivity|]);
      split; reflexivity.
  - destruct Hr3 as [-> | ->]; cbn beta iota; intros [= <- <-];
      (repeat (split; [congruence|])); exists (hdr ++ varid);
      (split; [rewrite E3, E2, E1, app_assoc; reflexivity|]);
      (split; [rewrite app_assoc; apply prefix_app_r; reflexivity|]);
      (split; [rewrite K3, K2, K1, crc32_Update_app; reflexivity|]);
      (split; [congruence | auto]).
Qed.

(** X7.  A [WritePacket] that returns an error has not counted the packet:
    the duration, the metadata and the closed flag are as before, the
    checksum has followed exactly the bytes that reached the recording
    entry, and those are a prefix of the packet's bytes.  The error is
    "writer closed", the refusal of the entry, or an error of the sink. *)
Theorem WritePacket_error_effect ts packetID payload w e w' :
  WritePacket ts packetID payload w = (Err e, w') ->
  duration w' = duration w /\ meta w' = meta w /\ closed w' = closed w /\
  (e = ErrWriterClosed \/ e = ErrZipWriteClosed \/ e = ErrSink) /\
  exists extra,
    Replay.recording w' = Replay.recording w ++ extra /\
    extra `prefix_of` packet_bytes ts packetID payload /\
    crc32 w' = crc32_Update (crc32 w) extra.
Proof.
  intros H. apply WritePacket_effect in H
    as (_ & M & C & _ & _ & _ & _ & _ & extra & E & P & K & D & He).
  repeat (split; [assumption|]). exists extra. auto.
Qed.

Lemma WritePacket_error_effect_witness :
  duration (snd (WritePacket 9%N 1 [1%N] Sample.faulty)) = 0%N /\
  fst (WritePacket 9%N 1 [1%N] Sample.faulty) = Err ErrSink.
Proof.
  assert (H : WritePacket 9%N 1 [1%N] Sample.faulty
              = (Err ErrSink, snd (WritePacket 9%N 1 [1%N] Sample.faulty)))
    by (vm_compute; reflexivity).
  split; [| vm_compute; reflexivity].
  exact (proj1 (WritePacket_error_effect _ _ _ _ _ _ H)).
Defined.

Lemma sound_NewWriter out now m w : NewWriter out now m = Ok w -> sound w.
Proof.
  unfold NewWriter, zip_Create, zip_NewWriter. cbn.
  destruct (next_fault out) as [[|] fs]; [discriminate|].
  intros [= <-]. unfold sound. cbn. repeat split. exists 0%nat. auto.
Qed.

Lemma sound_meta m w : sound w -> sound (set_meta m w).
Proof. exact (fun H => H). Qed.

Lemma sound_WritePacket ts packetID payload w r w' :
  sound w -> WritePacket ts packetID payload w = (r, w') -> sound w'.
Proof.
  intros (Hc & Hz & (h & Hr & Hn) & Hk) H.
  apply WritePacket_effect in H
    as (R & _ & C & _ & Z & _ & _ & N & extra & E & _ & K & _).
  unfold sound, checksum in *. rewrite R, C, Z, N, K, E, Hk, crc32_Update_app.
  repeat split; auto. exists h. auto.
Qed.

Lemma recording_entries_ext (w w' : Writer) :
  recw w' = recw w ->
  (forall h, recw w = Some h -> entries (zw w') !! h = entries (zw w) !! h) ->
  Replay.recording w' = Replay.recording w.
Proof.
  intros R H. unfold Replay.recording. rewrite R.
  destruct (recw w) as [h|]; [|reflexivity]. rewrite (H h eq_refl). reflexivity.
Qed.

Lemma sound_CreateEntry name w r w' :
  sound w -> CreateEntry name w = (r, w') ->
  sound w' /\ Replay.recording w' = Replay.recording w /\
  exists h, recw w' = Some h /\
    (last_open (zw w') = false \/ (S h < length (entries (zw w')))%nat).
Proof.
  intros (Hc & Hz & (h & Hr & Hn) & Hk). unfold CreateEntry. rewrite Hc.
  unfold io_zip, zip_Create.
  assert (Hh : (h < length (entries (zw w)))%nat).
  { apply lookup_lt_Some in Hn. rewrite length_fmap in Hn. exact Hn. }
  destruct (next_fault (faults (zw w))) as [[|] fs]; intros [= <- <-].
  - split; [|split; [reflexivity|]].
    + unfold sound. cbn. repeat split; auto. exists h. auto.
    + exists h. cbn. auto.
  - assert (HR : Replay.recording
                   (set_zw (mkZip (entries (zw w) ++ [mkEntry name []]) true
                                  (zip_closed (zw w)) (finished (zw w)) fs
                                  (calls (zw w) ++ [CallCreate name])) w)
                 = Replay.recording w).
    { apply recording_entries_ext; [reflexivity|].
      intros h' Hr'. cbn. rewrite Hr in Hr'. injection Hr' as <-.
      apply lookup_app_l. exact Hh. }
    split; [|split; [exact HR|]].
    + unfold sound. rewrite HR. cbn. repeat split; auto. exists h.
      split; [exact Hr|]. rewrite fmap_app, lookup_app_l by (rewrite length_fmap; lia).
      exact Hn.
    + exists h. cbn. split; [exact Hr|]. right. rewrite length_app. cbn. lia.
Qed.

Lemma sound_entry_Write h p w r w' :
  sound w -> recw w <> Some h -> io_zip (zip_Write h p) w = (r, w') -> sound w'.
Proof.
  intros (Hc & Hz & (h0 & Hr & Hn) & Hk) Hne. unfold io_zip, zip_Write.
  assert (Hh : h0 <> h) by congruence.
  destruct (negb (last_open (zw w)) || negb (S h =? length (entries (zw w)))%nat).
  - intros [= <- <-]. unfold sound. cbn. repeat split; auto. exists h0. auto.
  - destruct (next_fault (faults (zw w))) as [[|] fs]; intros [= <- <-].
    + unfold sound. cbn. repeat split; auto. exists h0. auto.
    + assert (HR : Replay.recording
                     (set_zw (mkZip (alter (append_data p) h (entries (zw w)))
                                    (last_open (zw w)) (zip_closed (zw w))
                                    (finished (zw w)) fs
                                    (calls (zw w) ++ [CallWrite h p])) w)
                   = Replay.recording w).
      { apply recording_entries_ext; [reflexivity|].
        intros h' Hr'. cbn. rewrite Hr in Hr'. injection Hr' as <-.
        apply list_lookup_alter_ne. congruence. }
      unfold sound. rewrite HR. cbn. repeat split; auto. exists h0.
      rewrite names_alter_append. auto.
Qed.

Lemma Reachable_sound (w : Writer) : Reachable w -> sound w.
Proof.
  induction 1 as [out now m w H | f out now m w H | ts packetID payload w r w' _ IH H
                 | id w _ IH | uuid w _ IH | name w r w' _ IH H
                 | h p w r w' _ IH Hne H].
  - eapply sound_NewWriter, H.
  - unfold Create in H. destruct f as [f|e]; [|discriminate].
    destruct (NewWriter out now m) as [w0|e] eqn:E; [|discriminate].
    injection H as <-. apply sound_NewWriter in E. exact E.
  - eapply sound_WritePacket; eauto.
  - apply sound_meta, IH.
  - unfold AddPlayer. destruct (existsb _ _); [exact IH | apply sound_meta, IH].
  - eapply sound_CreateEntry; eauto.
  - eapply sound_entry_Write; eauto.
Qed.

(** X8.  Whatever the caller did before [Close], and whatever errors the
    calls returned: the writer is open, its recording handle names the entry
    [recording.tmcpr], and its running checksum is the CRC-32 of exactly the
    bytes that entry holds. *)
Theorem Reachable_checksum (w : Writer) :
  Reachable w ->
  closed w = false /\
  (exists h e, recw w = Some h /\ entries (zw w) !! h = Some e /\
               Name e = "recording.tmcpr"%string /\ Data e = Replay.recording w) /\
  crc32 w = checksum (Replay.recording w).
Proof.
  intros H. apply Reachable_sound in H as (Hc & _ & (h & Hr & Hn) & Hk).
  split; [exact Hc|]. split; [|exact Hk].
  rewrite list_lookup_fmap in Hn.
  destruct (entries (zw w) !! h) as [e|] eqn:He; [|discriminate].
  injection Hn as Hn. exists h, e. repeat split; auto.
  unfold Replay.recording. rewrite Hr, He. reflexivity.
Qed.

Lemma Reachable_recorded : Reachable Sample.recorded.
Proof.
  eapply (R_WritePacket 1500%N 0x3A [0xDE; 0xAD; 0xBE; 0xEF]%N
            (snd (WritePacket 0%N 0x26 [0x0A; 0xFF; 0xEE]%N Sample.fresh)) (Ok tt)).
  - eapply (R_WritePacket 0%N 0x26 [0x0A; 0xFF; 0xEE]%N Sample.fresh (Ok tt)).
    + apply (R_NewWriter [] 1000 Sample.meta0). reflexivity.
    + vm_compute. reflexivity.
  - vm_compute. reflexivity.
Qed.

Lemma Reachable_checksum_witness :
  crc32 Sample.recorded = 2514203841%N /\
  crc32 Sample.recorded = checksum (Replay.recording Sample.recorded).
Proof.
  split; [reflexivity|].
  exact (proj2 (proj2 (Reachable_checksum Sample.recorded Reachable_recorded))).
Defined.

(** X9.  A [Close] that returns success on such a writer adds exactly three
    entries after those already there, in this order: the metadata as it is
    left in the writer, the fixed [mods.json], and the checksum of the
    recording entry in decimal.  The recording entry is not touched; the
    metadata carries the duration and has a generator, a format tag and a
    format version. *)
Theorem Close_layout {J : JSON} (w w' : Writer) :
  Reachable w ->
  Close w = (Ok tt, w') ->
  entries (zw w')
  = entries (zw w)
    ++ [ mkEntry "metaData.json" (json_Marshal (meta w'));
         mkEntry "mods.json" modsBytes;
         mkEntry "recording.tmcpr.crc32"
                 (bytes_of_string (Sprintf_d (checksum (Replay.recording w')))) ] /\
  Replay.recording w' = Replay.recording w /\
  Duration (meta w') = Z.of_N (duration w) /\
  Generator (meta w') <> EmptyString /\
  FileFormat (meta w') <> EmptyString /\
  FileFormatVersion (meta w') <> 0.
Proof.
  intros HR H. apply Reachable_sound in HR as (Hc & _ & (h & Hr & Hn) & Hk).
  apply Close_cases in H
    as (R & _ & _ & K & M & _ & [(_ & _ & E & _)|(_ & (e & He & _) & _)]);
    [| discriminate | exact Hc].
  assert (Hrec : Replay.recording w' = Replay.recording w).
  { apply recording_entries_ext; [exact R|].
    intros h' Hr'. rewrite Hr in Hr'. injection Hr' as <-. rewrite E.
    apply lookup_app_l. apply lookup_lt_Some in Hn. rewrite length_fmap in Hn. exact Hn. }
  rewrite E, Hrec, <- Hk, M. unfold final_entries.
  split; [reflexivity|]. split; [reflexivity|].
  unfold finalize_meta.
  repeat match goal with
         | |- context [String.eqb ?a ?b] => destruct (String.eqb_spec a b)
         | |- context [?a =? 0] => destruct (Z.eqb_spec a 0)
         end; cbn; repeat split; try assumption; try discriminate.
Qed.

Lemma Close_layout_witness :
  map Name (entries (zw Sample.recorded_finalized))
  = ["recording.tmcpr"; "metaData.json"; "mods.json"; "recording.tmcpr.crc32"]%string /\
  Duration (meta Sample.recorded_finalized) = 1500.
Proof.
  assert (Hc : @Close Sample.json Sample.recorded = (Ok tt, Sample.recorded_finalized))
    by (vm_compute; reflexivity).
  destruct (@Close_layout Sample.json _ _ Reachable_recorded Hc) as (E & _ & D & _).
  split; [rewrite E; reflexivity | exact D].
Defined.

(** X10.  Once [CreateEntry] has been called, with or without success, the
    recording entry takes no more packets: every [WritePacket] is refused by
    the archive and leaves the recording, the duration and the checksum as
    they are. *)
Theorem CreateEntry_ends_recording (name : string) (w w1 : Writer) (r : result nat) :
  Reachable w ->
  CreateEntry name w = (r, w1) ->
  Replay.recording w1 = Replay.recording w /\
  forall ts packetID payload, exists w2,
    WritePacket ts packetID payload w1 = (Err ErrZipWriteClosed, w2) /\
    Replay.recording w2 = Replay.recording w1 /\
    duration w2 = duration w1 /\ crc32 w2 = crc32 w1.
Proof.
  intros HR H. apply Reachable_sound in HR.
  destruct (sound_CreateEntry _ _ _ _ HR H) as ((Hc & _) & Hrec & h & Hr & Hnw).
  split; [exact Hrec|]. intros ts packetID payload.
  destruct (WritePacket_refused ts packetID payload w1 h Hc Hr Hnw)
    as (w2 & HW & _ & HE & _ & HD & HK).
  exists w2. split; [exact HW|]. split; [|auto].
  apply WritePacket_effect in HW as (R & _).
  apply recording_entries_ext; [exact R|]. intros. rewrite HE. reflexivity.
Qed.

Lemma CreateEntry_ends_recording_witness :
  fst (WritePacket 5%N 1 [1%N] (snd (CreateEntry "assets.zip" Sample.recorded)))
  = Err ErrZipWriteClosed.
Proof.
  destruct (CreateEntry_ends_recording "assets.zip" Sample.recorded
              (snd (CreateEntry "assets.zip" Sample.recorded))
              (fst (CreateEntry "assets.zip" Sample.recorded))
              Reachable_recorded ltac:(vm_compute; reflexivity)) as [_ H].
  destruct (H 5%N 1 [1%N]) as (w2 & HW & _).
  rewrite HW. reflexivity.
Defined.

End WriterMore.

(** ** Validation and the two commands *)

Section ValidateMore.
Import Mcpr Cmd.
Context {J : JSON}.

Lemma fileMap_of_snoc (files : list ZipFile) (f : ZipFile) :
  fileMap_of (files ++ [f]) = <[zName f := f]> (fileMap_of files).
Proof. unfold fileMap_of. rewrite fold_left_app. reflexivity. Qed.

Lemma fileMap_of_lookup (files : list ZipFile) (name : string) :
  fileMap_of files !! name = last (filter (fun f => zName f = name) files).
Proof.
  induction files as [|f files IH] using rev_ind; [reflexivity|].
  rewrite fileMap_of_snoc, filter_app.
  destruct (decide (zName f = name)) as [<-|Hne].
  - rewrite lookup_insert_eq. rewrite filter_cons_True by reflexivity.
    rewrite filter_nil, last_snoc. reflexivity.
  - rewrite lookup_insert_ne by exact Hne. rewrite filter_cons_False by exact Hne.
    rewrite filter_nil, app_nil_r. exact IH.
Qed.

(** X11.  When an archive has several files of one name, validation looks
    at the last of them; a name no file has is reported missing. *)
Theorem fileMap_last_wins (files : list ZipFile) (name : string) :
  fileMap_of files !! name = last (filter (fun f => zName f = name) files) /\
  (fileMap_of files !! name = None <-> Forall (fun f => zName f <> name) files).
Proof.
  split; [apply fileMap_of_lookup|].
  rewrite fileMap_of_lookup, last_None. split.
  - intros H. apply Forall_forall. intros f Hf Hname.
    assert (Hin : f ∈ filter (fun f => zName f = name) files)
      by (apply list_elem_of_filter; split; [exact Hname | exact Hf]).
    rewrite H in Hin. inversion Hin.
  - intros H. induction files as [|f files IH]; [reflexivity|].
    inversion H; subst. rewrite filter_cons_False by assumption. auto.
Qed.

Lemma fileMap_last_wins_witness :
  fileMap_of [mkZipFile "a" 1%N OpenFails; mkZipFile "b" 0%N ReadFails;
              mkZipFile "a" 2%N (Bytes [7%N])] !! "a"%string
  = Some (mkZipFile "a" 2%N (Bytes [7%N])) /\
  fileMap_of [mkZipFile "b" 0%N ReadFails] !! "a"%string = None.
Proof.
  split.
  - rewrite (proj1 (fileMap_last_wins _ _)). reflexivity.
  - apply (proj2 (fileMap_last_wins [mkZipFile "b" 0%N ReadFails] "a")).
    repeat constructor. discriminate.
Defined.

Lemma ValidateFile_accepts (fs : gmap string DiskFile) (path : string)
  info files recFile metaFile data meta :
  fs !! path = Some info -> Size info <> 0%N ->
  archive info = Some files ->
  fileMap_of files !! "recording.tmcpr" = Some recFile ->
  fileMap_of files !! "metaData.json" = Some metaFile ->
  content metaFile = Bytes data ->
  json_Unmarshal data = Some meta ->
  fst (ValidateFile fs path) = Ok tt.
Proof.
  intros Hfs Hs Ha Hr Hm Hc Hj. unfold ValidateFile.
  rewrite Hfs. destruct (N.eqb_spec (Size info) 0); [contradiction|].
  rewrite Ha, Hr, Hm, Hc, Hj. reflexivity.
Qed.

(** X12.  [ValidateFile] returns success exactly when the file is there and
    not empty, opens as an archive, has a [recording.tmcpr], and the last
    [metaData.json] opens, reads and parses.  No value of the metadata and
    no missing [mods.json] or checksum entry makes it fail. *)
Theorem ValidateFile_ok_iff (fs : gmap string DiskFile) (path : string) :
  fst (ValidateFile fs path) = Ok tt <->
  exists info files recFile metaFile data meta,
    fs !! path = Some info /\ Size info <> 0%N /\
    archive info = Some files /\
    fileMap_of files !! "recording.tmcpr" = Some recFile /\
    fileMap_of files !! "metaData.json" = Some metaFile /\
    content metaFile = Bytes data /\
    json_Unmarshal data = Some meta.
Proof.
  unfold ValidateFile. split.
  - destruct (fs !! path) as [info|] eqn:Hfs; [|discriminate].
    destruct (N.eqb_spec (Size info) 0); [discriminate|].
    destruct (archive info) as [files|] eqn:Ha; [|discriminate].
    destruct (fileMap_of files !! "recording.tmcpr") as [recFile|] eqn:Hrec;
      [|discriminate].
    destruct (fileMap_of files !! "metaData.json") as [metaFile|] eqn:Hmeta;
      [|discriminate].
    destruct (content metaFile) as [| |data] eqn:Hc; try discriminate.
    destruct (json_Unmarshal data) as [meta|] eqn:Hj; [|discriminate].
    intros _. exists info, files, recFile, metaFile, data, meta. auto 10.
  - intros (info & files & recFile & metaFile & data & meta
            & Hfs & Hs & Ha & Hr & Hm & Hc & Hj).
    fold (ValidateFile fs path). eapply ValidateFile_accepts; eassumption.
Qed.

(** X13.  The line "Validated ..." is logged exactly when [ValidateFile]
    succeeds, after all warnings, and carries the path and the size of the
    file.  When it fails, the log has at most the warning about an empty
    recording. *)
Theorem ValidateFile_log (fs : gmap string DiskFile) (path : string) :
  match ValidateFile fs path with
  | (Ok _, log) =>
      exists warnings mcversion protocol duration info,
        log = warnings ++ [Validated path mcversion protocol duration (Size info)] /\
        Forall is_warning warnings /\ fs !! path = Some info
  | (Err _, log) => log = [] \/ log = [WarnEmptyRecording]
  end.
Proof.
  unfold ValidateFile.
  destruct (fs !! path) as [info|] eqn:Hfs; [|auto].
  destruct (N.eqb_spec (Size info) 0); [auto|].
  destruct (archive info) as [files|]; [|auto].
  destruct (fileMap_of files !! "recording.tmcpr") as [recFile|]; [|auto].
  assert (Hl1 : forall l1 : list LogLine,
            l1 = (if (UncompressedSize64 recFile =? 0)%N
                  then [WarnEmptyRecording] else []) ->
            l1 = [] \/ l1 = [WarnEmptyRecording]).
  { intros l1 ->. destruct (UncompressedSize64 recFile =? 0)%N; auto. }
  destruct (fileMap_of files !! "metaData.json") as [metaFile|]; [|auto].
  destruct (content metaFile) as [| |data]; [auto | auto |].
  destruct (json_Unmarshal data) as [meta|]; [|auto].
  eexists _, _, _, _, info. split; [|split; [|reflexivity]].
  - rewrite !app_assoc. reflexivity.
  - repeat apply Forall_app_2;
      repeat match goal with
             | |- Forall _ (if ?c then _ else _) => destruct c
             | |- Forall _ (match ?c with _ => _ end) => destruct c
             end;
      repeat constructor.
Qed.

Lemma validate_step_exit (quiet : bool) (fs : gmap string DiskFile)
  (exitCode : Z) (file : string) :
  validate_step quiet fs exitCode file
  = match fst (ValidateFile fs file) with
    | Ok _ => exitCode
    | Err _ => 1
    end.
Proof.
  unfold validate_step.
  destruct (fs !! file) as [info|] eqn:Hfs.
  - destruct quiet; reflexivity.
  - unfold ValidateFile. rewrite Hfs. reflexivity.
Qed.

Lemma validate_fold (quiet : bool) (fs : gmap string DiskFile) (files : list string) :
  forall exitCode,
    (exitCode = 0 \/ exitCode = 1) ->
    (fold_left (validate_step quiet fs) files exitCode = 0 \/
     fold_left (validate_step quiet fs) files exitCode = 1) /\
    (fold_left (validate_step quiet fs) files exitCode = 0 <->
     exitCode = 0 /\ Forall (fun f => fst (ValidateFile fs f) = Ok tt) files).
Proof.
  induction files as [|f files IH]; intros exitCode Hcode; cbn [fold_left].
  - split; [exact Hcode|]. split; [auto | tauto].
  - rewrite validate_step_exit.
    destruct (fst (ValidateFile fs f)) as [[]|e] eqn:Hf.
    + destruct (IH exitCode Hcode) as [H01 Hiff]. split; [exact H01|].
      rewrite Hiff. split.
      * intros [-> HF]. split; [reflexivity | constructor; assumption].
      * intros [-> HF]. inversion HF; subst. auto.
    + destruct (IH 1 (or_intror eq_refl)) as [H01 Hiff]. split; [exact H01|].
      rewrite Hiff. split.
      * intros [[=] _].
      * intros [_ HF]. inversion HF; subst. congruence.
Qed.

(** X14.  mcpr-validate exits with 0 exactly when it was given at least
    one file and every file validates; the quiet flag does not change the
    exit code, and the code is 0 or 1. *)
Theorem mcpr_validate_exit (quiet : bool) (fs : gmap string DiskFile)
  (files : list string) :
  (mcpr_validate quiet fs files = 0 <->
   files <> [] /\ Forall (fun f => fst (ValidateFile fs f) = Ok tt) files) /\
  mcpr_validate quiet fs files = mcpr_validate (negb quiet) fs files /\
  (mcpr_validate quiet fs files = 0 \/ mcpr_validate quiet fs files = 1).
Proof.
  unfold mcpr_validate. destruct files as [|f files].
  - split; [|split; [reflexivity | right; reflexivity]].
    split; [discriminate | intros [H _]; congruence].
  - destruct (validate_fold quiet fs (f :: files) 0 (or_introl eq_refl)) as [H01 Hiff].
    split; [|split; [|exact H01]].
    + rewrite Hiff. split; [intros [_ H]; split; [discriminate | exact H] | intros [_ H]; auto].
    + assert (Hq : forall q, fold_left (validate_step q fs) (f :: files) 0
                             = fold_left (validate_step true fs) (f :: files) 0).
      { intros q. generalize 0. generalize (f :: files). intros l.
        induction l as [|x l IHl]; intros c; [reflexivity|].
        cbn [fold_left]. rewrite (validate_step_exit q), (validate_step_exit true).
        apply IHl. }
      rewrite (Hq quiet), (Hq (negb quiet)). reflexivity.
Qed.

Lemma write_all_frame (ms : list Replay.Message) :
  forall w r w',
    Replay.write_all ms w = (r, w') ->
    Name <$> entries (zw w') = Name <$> entries (zw w) /\
    recw w' = recw w /\ file w' = file w.
Proof.
  induction ms as [|m ms IH]; intros w r w' H.
  - injection H as <- <-. auto.
  - cbn [Replay.write_all] in H. unfold io_bind in H.
    destruct (WritePacket _ _ _ w) as [[[]|e] w1] eqn:H1.
    + apply WritePacket_effect in H1 as (R1 & _ & _ & F1 & _ & _ & _ & N1 & _).
      apply IH in H as (N & R & F). repeat split; congruence.
    + injection H as <- <-.
      apply WritePacket_effect in H1 as (R1 & _ & _ & F1 & _ & _ & _ & N1 & _). auto.
Qed.

(** X15.  What mcpr-create writes validates: when it ends without a fatal
    error, the archive has the four entries in their order, the recording
    entry is the packets of the command line laid out one after the other,
    the metadata carries the protocol, the largest timestamp as duration,
    the format tag [MCPR] and version 14; and if that archive is what the
    disk holds and the metadata written parses, [ValidateFile] accepts it.
    This holds for an empty packet list as well. *)
Theorem mcpr_create_validates (f : OsFile) (out : list bool) (now protocol : Z)
  (generator : string) (pkts : list Replay.Message) (w : Writer)
  (fs : gmap string DiskFile) (size : N) (parsed : Meta) :
  Forall Replay.valid_message pkts ->
  mcpr_create (Ok f) out now protocol generator pkts = Wrote w ->
  fs !! fpath f = Some (mkDisk size (Some (as_read <$> entries (zw w)))) ->
  size <> 0%N ->
  json_Unmarshal (json_Marshal (meta w)) = Some parsed ->
  Name <$> entries (zw w)
  = ["recording.tmcpr"; "metaData.json"; "mods.json"; "recording.tmcpr.crc32"]%string /\
  Replay.recording w = concat (map Replay.layout pkts) /\
  Protocol (meta w) = protocol /\
  Duration (meta w) = Z.of_N (Replay.max_timestamp pkts) /\
  FileFormat (meta w) = "MCPR"%string /\
  FileFormatVersion (meta w) = CurrentFileFormatVersion /\
  fst (ValidateFile fs (fpath f)) = Ok tt.
Proof.
  intros Hv Hrun Hfs Hsize Hjson. unfold mcpr_create, Create in Hrun.
  destruct (NewWriter out now _) as [w0|e] eqn:Hnew; [|discriminate].
  destruct (Replay.write_all pkts (set_file (Some f) w0)) as [[[]|e] w1] eqn:Hw;
    [|discriminate].
  destruct (Close w1) as [[[]|e] w2] eqn:Hc; [|discriminate].
  injection Hrun as ->.
  assert (Hw0 : entries (zw w0) = [mkEntry "recording.tmcpr" []] /\ recw w0 = Some 0%nat /\
                duration w0 = 0%N /\ closed w0 = false /\
                Protocol (meta w0) = protocol /\ FileFormat (meta w0) = "MCPR"%string /\
                FileFormatVersion (meta w0) = CurrentFileFormatVersion).
  { revert Hnew. unfold NewWriter, zip_Create, zip_NewWriter. cbn.
    destruct (next_fault out) as [[|] fs0]; [discriminate|].
    intros [= <-]. cbn. repeat split; destruct (now =? 0); reflexivity. }
  destruct Hw0 as (E0 & R0 & D0 & C0 & P0 & F0 & V0).
  pose proof (write_all_frame _ _ _ _ Hw) as (N1 & R1 & _).
  apply write_all_Ok in Hw as (HR & HD & HC & HM); [|exact Hv].
  cbn [set_file zw recw duration closed meta] in *.
  assert (Hrec0 : Replay.recording (set_file (Some f) w0) = []).
  { unfold Replay.recording. cbn. rewrite R0, E0. reflexivity. }
  rewrite Hrec0 in HR. cbn [app] in HR.
  rewrite E0 in N1. cbn in N1.
  destruct (entries (zw w1)) as [|e1 [|e1' es]] eqn:E1; try discriminate.
  injection N1 as Hname1.
  apply Close_cases in Hc
    as (R2 & _ & _ & _ & M2 & _ & [(_ & _ & E2 & _)|(_ & (e & He & _) & _)]);
    [| discriminate | congruence].
  rewrite E1 in E2. unfold final_entries in E2. cbn [app] in E2.
  assert (Hrec2 : Replay.recording w = Replay.recording w1).
  { unfold Replay.recording. rewrite R2, R1, R0, E2, E1. reflexivity. }
  assert (Hmeta : Protocol (meta w) = protocol /\
                  Duration (meta w) = Z.of_N (Replay.max_timestamp pkts) /\
                  FileFormat (meta w) = "MCPR"%string /\
                  FileFormatVersion (meta w) = CurrentFileFormatVersion).
  { rewrite M2, HM, HD, D0. unfold finalize_meta.
    rewrite N.max_r by lia.
    repeat match goal with
           | |- context [String.eqb ?a ?b] => destruct (String.eqb_spec a b)
           | |- context [?a =? 0] => destruct (Z.eqb_spec a 0)
           end; cbn; repeat split; congruence. }
  destruct Hmeta as (HP & HDu & HF & HV).
  split; [rewrite E2; cbn; rewrite Hname1; reflexivity|].
  split; [congruence|]. repeat (split; [assumption|]).
  rewrite <- M2 in E2.
  assert (Hz : forall e, zName (as_read e) = Name e) by reflexivity.
  apply (ValidateFile_accepts fs (fpath f)
           (mkDisk size (Some (as_read <$> entries (zw w))))
           (as_read <$> entries (zw w)) (as_read e1)
           (as_read (mkEntry "metaData.json" (json_Marshal (meta w))))
           (json_Marshal (meta w)) parsed);
    [exact Hfs | exact Hsize | reflexivity | | | reflexivity | exact Hjson].
  - rewrite E2. cbn [fmap list_fmap]. unfold fileMap_of. cbn [fold_left].
    rewrite !Hz. cbn [Name]. rewrite Hname1.
    rewrite !lookup_insert_ne by discriminate. apply lookup_insert_eq.
  - rewrite E2. cbn [fmap list_fmap]. unfold fileMap_of. cbn [fold_left].
    rewrite !Hz. cbn [Name]. rewrite Hname1.
    rewrite !lookup_insert_ne by discriminate. apply lookup_insert_eq.
Qed.

End ValidateMore.

Lemma ValidateFile_ok_iff_witness :
  fst (@Mcpr.ValidateFile Sample2.digits_json Sample2.healthy_disk "out.mcpr") = Ok tt /\
  exists info files recFile metaFile data meta,
    Sample2.healthy_disk !! "out.mcpr"%string = Some info /\ Mcpr.Size info <> 0%N /\
    Mcpr.archive info = Some files /\
    Mcpr.fileMap_of files !! "recording.tmcpr"%string = Some recFile /\
    Mcpr.fileMap_of files !! "metaData.json"%string = Some metaFile /\
    Mcpr.content metaFile = Mcpr.Bytes data /\
    @Mcpr.json_Unmarshal Sample2.digits_json data = Some meta.
Proof.
  assert (H : fst (@Mcpr.ValidateFile Sample2.digits_json Sample2.healthy_disk "out.mcpr")
              = Ok tt) by (vm_compute; reflexivity).
  split; [exact H|].
  exact (proj1 (@ValidateFile_ok_iff Sample2.digits_json Sample2.healthy_disk "out.mcpr") H).
Defined.

Lemma mcpr_validate_exit_witness :
  @Cmd.mcpr_validate Sample.json false Sample.damaged_disk ["out.mcpr"%string] = 1.
Proof.
  destruct (@mcpr_validate_exit Sample.json false Sample.damaged_disk ["out.mcpr"%string])
    as (Hiff & _ & [H0 | H1]); [|exact H1].
  apply (proj1 Hiff) in H0 as [_ HF]. inversion HF as [|? ? Hok _]; subst.
  vm_compute in Hok. discriminate Hok.
Defined.

Lemma mcpr_create_validates_witness :
  @Cmd.mcpr_create Sample2.digits_json (Ok Sample2.out_file) [] 1000 754
                   "mc-replay-go" Sample.two_messages
  = Cmd.Wrote Sample2.created /\
  fst (@Mcpr.ValidateFile Sample2.digits_json Sample2.healthy_disk "out.mcpr") = Ok tt /\
  Mcpr.Duration (Mcpr.meta Sample2.created) = 1500.
Proof.
  assert (Hrun : @Cmd.mcpr_create Sample2.digits_json (Ok Sample2.out_file) [] 1000 754
                   "mc-replay-go" Sample.two_messages
                 = Cmd.Wrote Sample2.created) by (vm_compute; reflexivity).
  destruct (@mcpr_create_validates Sample2.digits_json Sample2.out_file [] 1000 754
              "mc-replay-go" Sample.two_messages Sample2.created
              Sample2.healthy_disk 612%N
              (Mcpr.set_Duration 1500 Sample.meta0)
              two_messages_valid Hrun
              ltac:(vm_compute; reflexivity) ltac:(discriminate)
              ltac:(vm_compute; reflexivity))
    as (_ & _ & _ & HD & _ & _ & HV).
  split; [exact Hrun|]. split; [exact HV | exact HD].
Defined.

(** ** The facade, continued *)

(** X16.  [Recorder.Close] is final whatever the writer answered: after it,
    [RecordAt], [RecordNow] and a second [Close] return success and do
    nothing.  In particular, when the writer's [Close] failed before the
    archive was closed, the facade never tries it again, although the writer
    underneath is still not marked closed. *)
Theorem Recorder_Close_final {J : Mcpr.JSON} (r : Recorder.Recorder) :
  let r' := snd (Recorder.Close r) in
  (forall ts id payload, Recorder.RecordAt ts id payload r' = (Ok tt, r')) /\
  (forall now id payload, Recorder.RecordNow now id payload r' = (Ok tt, r')) /\
  Recorder.Close r' = (Ok tt, r') /\
  (forall e, Recorder.closed r = false -> Mcpr.closed (Recorder.w r) = false ->
             fst (Recorder.Close r) = Err e -> e <> ErrFileClose ->
             Mcpr.closed (Recorder.w r') = false).
Proof.
  assert (Hc : Recorder.closed (snd (Recorder.Close r)) = true).
  { unfold Recorder.Close. destruct (Recorder.closed r) eqn:E; [exact E|].
    destruct (Mcpr.Close (Recorder.w r)); reflexivity. }
  cbv zeta. unfold Recorder.RecordAt, Recorder.RecordNow. rewrite Hc.
  split; [reflexivity|]. split; [reflexivity|]. split.
  - unfold Recorder.Close at 1. rewrite Hc. reflexivity.
  - intros e Hr Hw. unfold Recorder.Close. rewrite Hr.
    destruct (Mcpr.Close (Recorder.w r)) as [res w'] eqn:HC. cbn.
    intros -> Hne.
    apply Close_cases in HC
      as (_ & _ & _ & _ & _ & _ & [(_ & _ & _ & [Hok|Herr])|(Hc' & _)]);
      [discriminate | congruence | exact Hc' | exact Hw].
Qed.

Lemma Recorder_Close_final_witness :
  fst (@Recorder.Close Sample.json Sample2.faulty_recorder)
  = Err (ErrCreateEntry "metaData.json") /\
  Mcpr.closed (Recorder.w (snd (@Recorder.Close Sample.json Sample2.faulty_recorder)))
  = false /\
  fst (@Recorder.Close Sample.json
         (snd (@Recorder.Close Sample.json Sample2.faulty_recorder))) = Ok tt.
Proof.
  assert (H : fst (@Recorder.Close Sample.json Sample2.faulty_recorder)
              = Err (ErrCreateEntry "metaData.json")) by (vm_compute; reflexivity).
  destruct (@Recorder_Close_final Sample.json Sample2.faulty_recorder)
    as (_ & _ & HC & Hopen).
  split; [exact H|]. split.
  - exact (Hopen _ eq_refl eq_refl H ltac:(discriminate)).
  - rewrite HC. reflexivity.
Defined.

(** ** The frame parser, continued *)

Section ParserMore.
Import Mcpr Proxyrec.
Context {Z0 : Zlib}.
Variable cfg : Config.
Variable clock : nat -> Z.

Lemma recw_Write_ready h p w :
  Lifecycle.ready w -> recw w = Some h ->
  exists w', recw_Write h p w = (Ok tt, w') /\ Lifecycle.ready w'.
Proof.
  intros (Hc & Ho & Hf & h' & Hr & Hh) Hr'. rewrite Hr in Hr'. injection Hr' as <-.
  unfold recw_Write, io_bind, io_zip, zip_Write, io_modify.
  rewrite Ho, Hf, <- Hh, Nat.eqb_refl. cbn.
  eexists. split; [reflexivity|]. unfold Lifecycle.ready. cbn. rewrite length_alter.
  repeat split; auto. exists h'. auto.
Qed.

Lemma WritePacket_ready ts packetID payload w :
  Lifecycle.ready w ->
  exists w', WritePacket ts packetID payload w = (Ok tt, w') /\ Lifecycle.ready w'.
Proof.
  intros Hw. pose proof Hw as (Hc & _ & _ & h & Hr & _).
  unfold WritePacket. rewrite Hc, Hr.
  destruct (recw_Write_ready h (PutUint32 ts ++ PutUint32 (uint32 (Z.of_nat
              (length (encodeVarInt packetID) + length payload)))) w Hw Hr)
    as (w1 & H1 & Hw1).
  assert (R1 : recw w1 = Some h)
    by (apply recw_Write_Ok in H1; intuition congruence).
  destruct (recw_Write_ready h (encodeVarInt packetID) w1 Hw1 R1) as (w2 & H2 & Hw2).
  assert (R2 : recw w2 = Some h)
    by (apply recw_Write_Ok in H2; intuition congruence).
  destruct (recw_Write_ready h payload w2 Hw2 R2) as (w3 & H3 & Hw3).
  unfold io_bind. rewrite H1, H2, H3. unfold io_modify.
  eexists. split; [reflexivity|].
  destruct (duration w3 <? ts)%N; exact Hw3.
Qed.

Lemma stays_off_decode enabled frame :
  Wire.stays_off cfg enabled -> decode cfg enabled frame = frame.
Proof.
  unfold decode. intros [-> | [_ ->]]; [reflexivity|].
  rewrite andb_false_r. reflexivity.
Qed.

Lemma stays_off_detect enabled payload :
  Wire.stays_off cfg enabled -> Wire.stays_off cfg (detect cfg enabled payload).
Proof.
  unfold detect, Wire.stays_off. intros [Ha | [Hg He]]; [left; exact Ha | right].
  rewrite Hg. auto.
Qed.

Lemma readVarInt_of_nat (n : nat) (rest : list byte) :
  Z.of_nat n <= maxFrame ->
  readVarInt (encodeVarInt (Z.of_nat n) ++ rest) = Ok (Z.of_nat n, rest).
Proof.
  intros Hn. rewrite readVarInt_encodeVarInt. do 2 f_equal.
  unfold uint32. rewrite Z2N.id by (apply Z.mod_pos_bound; lia).
  apply Z.mod_small. unfold maxFrame in Hn. change (Z.shiftl 8 20) with 8388608 in Hn.
  change (2 ^ 32) with 4294967296. lia.
Qed.

Lemma encodeVarInt_nonempty (v : Z) : (1 <= length (encodeVarInt v))%nat.
Proof.
  unfold encodeVarInt.
  apply (encode_length 5 _ (uint32_fits v) ltac:(discriminate)).
Qed.

(** One round on a frame at the head of the stream. *)
Lemma round_frame (id : Z) (payload tail : list byte) (s : PState) :
  Wire.fits_frame (id, payload) ->
  br s = Wire.frame id payload ++ tail ->
  Lifecycle.ready (wr s) ->
  Wire.stays_off cfg (compressionEnabled s) ->
  exists w',
    WritePacket (uint32 (clock (tick s))) id payload (wr s) = (Ok tt, w') /\
    Lifecycle.ready w' /\
    round cfg clock s
    = Continue (mkPState tail (detect cfg (compressionEnabled s) payload) w'
                         (S (tick s))).
Proof.
  intros [Hid Hlen] Hbr Hw Hoff. cbn [fst snd] in *.
  destruct (WritePacket_ready (uint32 (clock (tick s))) id payload (wr s) Hw)
    as (w' & HW & Hw').
  exists w'. split; [exact HW|]. split; [exact Hw'|].
  unfold round. rewrite Hbr. unfold Wire.frame. rewrite <- app_assoc.
  set (body := encodeVarInt id ++ payload) in *.
  rewrite readVarInt_of_nat by exact Hlen.
  assert (Hpos : (1 <= length body)%nat).
  { unfold body. rewrite length_app. pose proof (encodeVarInt_nonempty id). lia. }
  destruct (Z.leb_spec (Z.of_nat (length body)) 0); [lia|].
  destruct (Z.gtb_spec (Z.of_nat (length body)) maxFrame); [lia|].
  cbn [orb]. rewrite Nat2Z.id.
  destruct (Nat.ltb_spec (length (body ++ tail)) (length body));
    [rewrite length_app in *; lia|].
  rewrite take_app_length, drop_app_length, stays_off_decode by exact Hoff.
  unfold body. rewrite readVarInt_encodeVarInt, int32_uint32 by exact Hid.
  rewrite HW. reflexivity.
Qed.

Lemma advance_frames (ps : list (Z * list byte)) :
  forall (tail : list byte) (s : PState),
    Forall Wire.fits_frame ps ->
    br s = concat (map (fun p => Wire.frame (fst p) (snd p)) ps) ++ tail ->
    Lifecycle.ready (wr s) ->
    Wire.stays_off cfg (compressionEnabled s) ->
    exists s',
      advance cfg clock (length ps) s = Some s' /\
      br s' = tail /\ tick s' = (tick s + length ps)%nat /\
      Lifecycle.ready (wr s') /\ Wire.stays_off cfg (compressionEnabled s') /\
      Replay.write_all (Wire.stamped clock (tick s) ps) (wr s) = (Ok tt, wr s').
Proof.
  induction ps as [|[id payload] ps IH]; intros tail s Hfit Hbr Hw Hoff.
  - exists s. cbn. rewrite Nat.add_0_r. auto 10.
  - inversion Hfit as [|? ? Hp Hps]; subst.
    cbn [map concat fst snd] in Hbr. rewrite <- app_assoc in Hbr.
    destruct (round_frame id payload _ s Hp Hbr Hw Hoff) as (w' & HW & Hw' & Hround).
    cbn [advance length]. rewrite Hround.
    destruct (IH tail (mkPState
                (concat (map (fun p => Wire.frame (fst p) (snd p)) ps) ++ tail)
                (detect cfg (compressionEnabled s) payload) w' (S (tick s)))
                Hps eq_refl Hw' (stays_off_detect _ _ Hoff))
      as (s' & Hadv & Hbr' & Ht & Hr' & Ho' & Hall).
    exists s'. cbn [tick wr] in *. split; [exact Hadv|]. split; [exact Hbr'|].
    split; [lia|]. split; [exact Hr'|]. split; [exact Ho'|].
    cbn [Wire.stamped Replay.write_all Replay.timestampMs Replay.id Replay.payload].
    unfold io_bind. rewrite HW. exact Hall.
Qed.

Lemma parse_starved_after (r : list byte) (w : Writer) (k : nat) (s : PState)
  (e : error) (w' : Writer) :
  advance cfg clock k (init cfg r w) = Some s ->
  round cfg clock s = Starved e w' ->
  parseAndRecord cfg clock r w = Some (e, w').
Proof.
  intros Hadv Hround. unfold parseAndRecord.
  pose proof (advance_length cfg clock _ _ _ Hadv) as Hk. cbn [br init] in Hk.
  replace (S (length r)) with (k + S (length r - k))%nat by lia.
  rewrite (rounds_advance cfg clock k _ _ _ Hadv).
  cbn [rounds]. rewrite Hround. reflexivity.
Qed.

Lemma stamped_valid (ps : list (Z * list byte)) :
  forall k, Forall Wire.fits_frame ps ->
            Forall Replay.valid_message (Wire.stamped clock k ps).
Proof.
  induction ps as [|[id payload] ps IH]; intros k Hfit; [constructor|].
  inversion Hfit as [|? ? [Hid Hlen] Hps]; subst. cbn [fst snd] in *.
  cbn [Wire.stamped]. constructor; [|apply IH, Hps].
  unfold Replay.valid_message. cbn. split; [apply uint32_range|]. split; [exact Hid|].
  rewrite length_app in Hlen. unfold maxFrame in Hlen.
  change (Z.shiftl 8 20) with 8388608 in Hlen.
  change (2 ^ 32)%N with 4294967296%N. lia.
Qed.

End ParserMore.

(** X17.  With compression handling off, a writer that takes every packet
    and a stream made of whole frames (length, id, payload; each frame at
    most 8 MiB): [parseAndRecord] records exactly the packets of the
    stream, in order, each stamped with the clock reading at its turn, as
    if [WritePacket] had been called for each; it then returns [io.EOF].
    The recording entry grows by the layout of those messages. *)
Theorem parseAndRecord_frames {Z0 : Proxyrec.Zlib} (cfg : Proxyrec.Config)
  (clock : nat -> Z) (ps : list (Z * list byte)) (w : Mcpr.Writer) :
  Forall Wire.fits_frame ps ->
  Lifecycle.ready w ->
  Wire.stays_off cfg (Proxyrec.forceThreshold cfg >=? 0) ->
  exists w',
    Proxyrec.parseAndRecord cfg clock
      (concat (map (fun p => Wire.frame (fst p) (snd p)) ps)) w = Some (ErrEOF, w') /\
    Replay.write_all (Wire.stamped clock 0 ps) w = (Ok tt, w') /\
    Replay.recording w'
    = Replay.recording w ++ concat (map Replay.layout (Wire.stamped clock 0 ps)).
Proof.
  intros Hfit Hw Hoff.
  destruct (advance_frames cfg clock ps []
              (Proxyrec.init cfg (concat (map (fun p => Wire.frame (fst p) (snd p)) ps)) w)
              Hfit ltac:(cbn; rewrite app_nil_r; reflexivity) Hw Hoff)
    as (s' & Hadv & Hbr & _ & _ & _ & Hall).
  cbn [Proxyrec.wr Proxyrec.tick Proxyrec.init] in Hall.
  exists (Proxyrec.wr s'). split; [|split; [exact Hall|]].
  - apply (parse_starved_after cfg clock _ _ _ _ _ _ Hadv).
    unfold Proxyrec.round. rewrite Hbr. reflexivity.
  - apply write_all_Ok in Hall as (HR & _); [exact HR|].
    apply stamped_valid, Hfit.
Qed.

Lemma ready_fresh : Lifecycle.ready Sample.fresh.
Proof. unfold Lifecycle.ready. cbn. repeat split. exists 0%nat. auto. Qed.

Lemma packets_fit : Forall Wire.fits_frame Sample2.packets.
Proof.
  repeat constructor; unfold is_int32; cbn; try lia;
    intro H; vm_compute in H; discriminate H.
Qed.

Lemma parseAndRecord_frames_witness :
  exists w',
    @Proxyrec.parseAndRecord Sample.no_zlib Sample2.no_compress Sample.clock40
                             Sample2.wire Sample.fresh = Some (ErrEOF, w') /\
    Replay.read_recording (Replay.recording w')
    = Some [ Replay.mkMessage 40%N 0x26 [0x0A; 0xFF; 0xEE]%N;
             Replay.mkMessage 40%N 0x3A [0xDE; 0xAD; 0xBE; 0xEF]%N ].
Proof.
  destruct (@parseAndRecord_frames Sample.no_zlib Sample2.no_compress Sample.clock40
              Sample2.packets Sample.fresh packets_fit ready_fresh
              (or_introl eq_refl)) as (w' & HP & HW & HR).
  exists w'. split; [exact HP|].
  rewrite HR. vm_compute. reflexivity.
Defined.

(** X18.  The same stream cut off inside a frame: after the whole frames,
    a frame length followed by fewer bytes than it announces.  The whole
    frames are recorded as before and [parseAndRecord] returns [io.EOF] when
    no byte of the cut frame's body arrived, [io.ErrUnexpectedEOF]
    otherwise. *)
Theorem parseAndRecord_truncated {Z0 : Proxyrec.Zlib} (cfg : Proxyrec.Config)
  (clock : nat -> Z) (ps : list (Z * list byte)) (n : nat) (body : list byte)
  (w : Mcpr.Writer) :
  Forall Wire.fits_frame ps ->
  Lifecycle.ready w ->
  Wire.stays_off cfg (Proxyrec.forceThreshold cfg >=? 0) ->
  (length body < n)%nat -> Z.of_nat n <= Proxyrec.maxFrame ->
  exists w',
    Proxyrec.parseAndRecord cfg clock
      (concat (map (fun p => Wire.frame (fst p) (snd p)) ps)
       ++ encodeVarInt (Z.of_nat n) ++ body) w
    = Some (match body with [] => ErrEOF | _ => ErrUnexpectedEOF end, w') /\
    Replay.write_all (Wire.stamped clock 0 ps) w = (Ok tt, w').
Proof.
  intros Hfit Hw Hoff Hshort Hn.
  destruct (advance_frames cfg clock ps (encodeVarInt (Z.of_nat n) ++ body)
              (Proxyrec.init cfg _ w) Hfit eq_refl Hw Hoff)
    as (s' & Hadv & Hbr & _ & _ & _ & Hall).
  cbn [Proxyrec.wr Proxyrec.tick Proxyrec.init] in Hall.
  exists (Proxyrec.wr s'). split; [|exact Hall].
  apply (parse_starved_after cfg clock _ _ _ _ _ _ Hadv).
  unfold Proxyrec.round. rewrite Hbr, readVarInt_of_nat by exact Hn.
  destruct (Z.leb_spec (Z.of_nat n) 0); [lia|].
  destruct (Z.gtb_spec (Z.of_nat n) Proxyrec.maxFrame); [lia|].
  cbn [orb]. rewrite Nat2Z.id.
  destruct (Nat.ltb_spec (length body) n); [|lia].
  destruct body; reflexivity.
Qed.

Lemma parseAndRecord_truncated_witness :
  exists w',
    @Proxyrec.parseAndRecord Sample.no_zlib Sample2.no_compress Sample.clock40
       (Sample2.wire ++ [5; 0x01; 0x02]%N) Sample.fresh
    = Some (ErrUnexpectedEOF, w').
Proof.
  destruct (@parseAndRecord_truncated Sample.no_zlib Sample2.no_compress Sample.clock40
              Sample2.packets 5 [0x01; 0x02]%N Sample.fresh packets_fit ready_fresh
              (or_introl eq_refl) ltac:(cbn; lia)
              ltac:(intro H; vm_compute in H; discriminate H))
    as (w' & HP & _).
  exists w'. exact HP.
Defined.

(** X19.  With compression on, a round on a frame whose size field is zero
    records the rest of the frame as id and payload; on a frame whose size
    field is positive and whose block inflates, it records the id and
    payload of the inflated bytes.  The size field is not compared with
    what the block inflates to. *)
Theorem round_compressed {Z0 : Proxyrec.Zlib} (cfg : Proxyrec.Config)
  (clock : nat -> Z) (s : Proxyrec.PState) (n size pid64 : Z)
  (r1 block data payload : list byte) (w' : Mcpr.Writer) :
  Proxyrec.assumeNoCompress cfg = false ->
  Proxyrec.compressionEnabled s = true ->
  readVarInt (Proxyrec.br s) = Ok (n, r1) ->
  0 < n <= Proxyrec.maxFrame ->
  (Z.to_nat n <= length r1)%nat ->
  readVarInt (firstn (Z.to_nat n) r1) = Ok (size, block) ->
  (size = 0 /\ data = block) \/ (0 < size /\ Proxyrec.zlib_inflate block = Some data) ->
  readVarInt data = Ok (pid64, payload) ->
  Mcpr.WritePacket (uint32 (clock (Proxyrec.tick s))) (int32 pid64) payload
                   (Proxyrec.wr s) = (Ok tt, w') ->
  Proxyrec.round cfg clock s
  = Proxyrec.Continue
      (Proxyrec.mkPState (skipn (Z.to_nat n) r1) true w' (S (Proxyrec.tick s))).
Proof.
  intros Ha He Hlen Hn Hr1 Hsize Hcase Hpid HW.
  assert (Hd : Proxyrec.decode cfg true (firstn (Z.to_nat n) r1) = data).
  { unfold Proxyrec.decode. rewrite Ha, Hsize. cbn [negb andb].
    destruct Hcase as [[-> ->] | [Hpos ->]]; [reflexivity|].
    destruct (Z.gtb_spec size 0); [reflexivity | lia]. }
  unfold Proxyrec.round. rewrite Hlen.
  destruct (Z.leb_spec n 0); [lia|].
  destruct (Z.gtb_spec n Proxyrec.maxFrame); [lia|].
  cbn [orb]. destruct (Nat.ltb_spec (length r1) (Z.to_nat n)); [lia|].
  rewrite He, Hd, Hpid, HW. unfold Proxyrec.detect.
  rewrite andb_false_r. reflexivity.
Qed.

Lemma round_compressed_witness :
  @Proxyrec.round Sample.no_zlib Sample.forced Sample.clock40
     (Proxyrec.init Sample.forced Sample2.literal_frame Sample.fresh)
  = Proxyrec.Continue (Proxyrec.mkPState [] true Sample2.after_literal 1) /\
  Replay.recording Sample2.after_literal = [0; 0; 0; 40; 0; 0; 0; 2; 0x26; 0x0A]%N.
Proof.
  split; [|vm_compute; reflexivity].
  refine (@round_compressed Sample.no_zlib Sample.forced Sample.clock40
            (Proxyrec.init Sample.forced Sample2.literal_frame Sample.fresh)
            3 0 0x26 [0x00; 0x26; 0x0A]%N [0x26; 0x0A]%N [0x26; 0x0A]%N [0x0A]%N
            Sample2.after_literal eq_refl eq_refl _ _ _ _ (or_introl (conj eq_refl eq_refl))
            _ _).
  - vm_compute. reflexivity.
  - split; [reflexivity | intro H; vm_compute in H; discriminate H].
  - vm_compute. lia.
  - vm_compute. reflexivity.
  - vm_compute. reflexivity.
  - vm_compute. reflexivity.
Defined.

(** ** Forwarding with a tee, continued *)

Section TeeMore.
Import Mcpr Proxyrec Tee.




Lemma forwardWithTee_no_mirror (src : list (list byte)) :
  forall (err : error) (dst : Dst) (tee : option Pipe),
    dst_faults dst = [] ->
    match tee with Some pp => read_closed pp = true | None => True end ->
    forwardWithTee src err dst tee
    = Returned err (mkDst (delivered dst ++ concat src) []) tee.
Proof.
  induction src as [|c src IH]; intros err dst tee Hf Htee.
  - cbn. rewrite app_nil_r. destruct dst as [d fs]. cbn in Hf. subst. reflexivity.
  - cbn [forwardWithTee concat]. destruct c as [|b c].
    + cbn [length Nat.ltb Nat.leb app]. apply IH; assumption.
    + cbn [length Nat.ltb Nat.leb]. unfold dst_Write. rewrite Hf. cbn [next_fault].
      destruct tee as [pp|].
      * cbn [tee_Write pipe_writer]. unfold pipe_Write. rewrite Htee.
        rewrite IH by (assumption || reflexivity).
        cbn [delivered]. rewrite <- app_assoc. reflexivity.
      * rewrite IH by (exact I || reflexivity).
        cbn [delivered]. rewrite <- app_assoc. reflexivity.
Qed.

(** X21.  An error of the tee never stops forwarding: with the read side of
    the pipe closed every write into it fails, and with no tee at all there
    is none, and in both cases every chunk still reaches the client and the
    source's condition is what is returned. *)
Theorem forwardWithTee_ignores_tee_error (src : list (list byte)) (err : error)
  (dst : Dst) (tee : option Pipe) :
  dst_faults dst = [] ->
  match tee with Some pp => read_closed pp = true | None => True end ->
  forwardWithTee src err dst tee
  = Returned err (mkDst (delivered dst ++ concat src) []) tee /\
  (forall pp chunk, read_closed pp = true ->
                    tee_Write chunk pp = Failed ErrClosedPipe pp).
Proof.
  intros Hf Htee. split; [apply forwardWithTee_no_mirror; assumption|].
  intros pp chunk Hc. cbn. unfold pipe_Write. rewrite Hc. reflexivity.
Qed.

Lemma forwardWithTee_ignores_tee_error_witness :
  forwardWithTee [[1; 2]; [3]]%N ErrEOF (mkDst [] [])
                 (Some (mkPipe [] true (fun _ => true)))
  = Returned ErrEOF (mkDst [1; 2; 3]%N []) (Some (mkPipe [] true (fun _ => true))).
Proof.
  exact (proj1 (forwardWithTee_ignores_tee_error [[1; 2]; [3]]%N ErrEOF (mkDst [] [])
                  (Some (mkPipe [] true (fun _ => true))) eq_refl eq_refl)).
Defined.


End TeeMore.
